(** * Port Authority Inspection Analytics Dashboard (dashboard.py)

    A shallow embedding of the data flow of [dashboard.py]: the two
    spreadsheet loaders, the port filter, the keyword matcher, the top-N
    selection behind the bar chart, the phrase search, and the CSV export.

    Conventions.
    - Python [str] is [string], a sequence of 8-bit characters, and case
      mapping is the ASCII one.  This is Python's behaviour on ASCII text;
      the statements about letter case are restricted to such text.
    - A data frame is the list of its rows, in source order.  Cells of the
      authority table are present and of the type of their column, as in
      the data model; cells of the ship table may be missing, because the
      script drops missing ones itself ([dropna]).
    - TF-IDF and RAKE scores are rationals.  Their order is the order of
      the floats; a mean is computed exactly, where floating point rounds,
      and nothing is stated about its value.  How a float is printed and
      read is a parameter.
    - Streamlit calls are events appended to a trace, in program order.
      [main] lists the calls of a pass; [run] stops the pass at the first
      call that raises.
    - RAKE and the part of the regular-expression engine beyond literal
      characters and the dot are parameters of the development. *)

From Stdlib Require Import Ascii QArith Lqa.
From stdpp Require Import gmap strings list sorting pretty.

(** ** Python strings *)

Module Str.

Definition is_upper (c : ascii) : bool :=
  (65 <=? nat_of_ascii c)%nat && (nat_of_ascii c <=? 90)%nat.

(** [c.lower()] on one character of ASCII text: the 26 capital letters are
    mapped to their small letters, and every other character is left as it
    is.  Python also maps the capital letters outside ASCII. *)
Definition lower_char (c : ascii) : ascii :=
  if is_upper c then ascii_of_nat (nat_of_ascii c + 32) else c.

(** [s.lower()] *)
Fixpoint lower (s : string) : string :=
  match s with
  | EmptyString => EmptyString
  | String c s' => String (lower_char c) (lower s')
  end.

(** [s.startswith(p)] *)
Fixpoint startswith (p s : string) : bool :=
  match p, s with
  | EmptyString, _ => true
  | String _ _, EmptyString => false
  | String a p', String b s' => if Ascii.eqb a b then startswith p' s' else false
  end.

(** [needle in hay] *)
Fixpoint contains (needle hay : string) : bool :=
  match hay with
  | EmptyString => startswith needle EmptyString
  | String _ hay' => startswith needle hay || contains needle hay'
  end.

(** [sep.join(l)] *)
Fixpoint join (sep : string) (l : list string) : string :=
  match l with
  | [] => EmptyString
  | [x] => x
  | x :: l' => x +:+ sep +:+ join sep l'
  end.

(** [p] occurs in [s] as a contiguous block. *)
Definition is_substring (p s : string) : Prop :=
  ∃ pre post, s = pre +:+ p +:+ post.

(** Text made of ASCII characters only.  What the development says about
    letter case, it says of such text: there [str.lower] and
    [re.IGNORECASE] change the 26 letters and nothing else. *)
Definition is_ascii_char (c : ascii) : bool := (nat_of_ascii c <? 128)%nat.

Fixpoint is_ascii (s : string) : bool :=
  match s with
  | EmptyString => true
  | String c s' => is_ascii_char c && is_ascii s'
  end.

(** The letters: each capital with its small letter. *)
Fixpoint pairs (a b : string) : list (ascii * ascii) :=
  match a, b with
  | String x a', String y b' => (x, y) :: pairs a' b'
  | _, _ => []
  end.

Definition letters : list (ascii * ascii) :=
  pairs "ABCDEFGHIJKLMNOPQRSTUVWXYZ" "abcdefghijklmnopqrstuvwxyz".

(** The same character, or the same letter in its two cases. *)
Definition same_letter (a b : ascii) : Prop :=
  a = b ∨ (a, b) ∈ letters ∨ (b, a) ∈ letters.

(** Two texts that are equal when letter case is ignored: of the same
    length, with the same letter at every place. *)
Inductive eq_nocase : string → string → Prop :=
| eq_nocase_empty : eq_nocase EmptyString EmptyString
| eq_nocase_String (a b : ascii) (s t : string) :
    same_letter a b → eq_nocase s t → eq_nocase (String a s) (String b t).

(** [p] occurs in [s] when letter case is ignored: a block of [s] is [p]
    up to letter case. *)
Definition is_substring_nocase (p s : string) : Prop :=
  ∃ pre mid post, s = pre +:+ mid +:+ post ∧ eq_nocase p mid.

(** Every character. *)
Definition all_chars : list ascii := ascii_of_nat <$> seq 0 256.

End Str.

(** ** Data model *)

Record date := mkdate { year : nat; month : nat; day : nat }.

(** One row of the authority spreadsheet. *)
Record AuthorityRecord := mkAuthority {
  Authority : string;
  Date : option date;
  Phrase : string;
  Score : Q
}.

(** The authority table: its rows, and whether it has a [Date] column. *)
Record AuthorityTable := mkAuthorityTable {
  has_Date : bool;
  records : list AuthorityRecord
}.

(** One row of the ship spreadsheet; [None] is a missing cell. *)
Record ShipRecord := mkShip {
  Vessel_Name : option string;
  Nature_of_deficiency : option string
}.

Record ShipTable := mkShipTable {
  has_Vessel_Name : bool;
  has_Nature_of_deficiency : bool;
  ship_records : list ShipRecord
}.

(** ** Filter layer *)

(** [sorted(df["Authority"].unique())] *)
Definition ports (df : list AuthorityRecord) : list string :=
  merge_sort String.le (remove_dups (Authority <$> df)).

(** [df[df["Authority"] == selected_port]] *)
Definition filtered_df (df : list AuthorityRecord) (selected_port : string)
  : list AuthorityRecord :=
  filter (λ r, Authority r = selected_port) df.

(** [sorted(ship_df['Vessel Name'].dropna().unique())] *)
Definition ships (ship_df : list ShipRecord) : list string :=
  merge_sort String.le (remove_dups (omap Vessel_Name ship_df)).

(** ** Keyword matcher *)

(** One entry of [matched_table]: the dict with keys "Matched Keyword" and
    "Port Phrase". *)
Record MatchRow := mkMatch {
  Matched_Keyword : string;
  Port_Phrase : string
}.

Global Instance MatchRow_eq_dec : EqDecision MatchRow.
Proof. solve_decision. Defined.

(** [ship_df[ship_df['Vessel Name'] == selected_ship]] *)
Definition ship_rows (ship_df : list ShipRecord) (selected_ship : string)
  : list ShipRecord :=
  filter (λ r, Vessel_Name r = Some selected_ship) ship_df.

(** [ship_rows['Nature of deficiency'].dropna().astype(str)] *)
Definition past_deficiencies (rows : list ShipRecord) : list string :=
  omap Nature_of_deficiency rows.

(** [" ".join([t for t in past_deficiencies if t.lower() != "nil"])] *)
Definition combined_text (deficiencies : list string) : string :=
  Str.join " " (filter (λ t, Str.lower t ≠ "nil") deficiencies).

(** [[phrase for score, phrase in ranked_phrases[:10]]] *)
Definition top_keywords (ranked_phrases : list (Q * string)) : list string :=
  snd <$> take 10 ranked_phrases.

(** [filtered_df['Phrase'].str.lower().tolist()] *)
Definition authority_phrases (fdf : list AuthorityRecord) : list string :=
  (λ r, Str.lower (Phrase r)) <$> fdf.

(** The two nested loops that fill [matched_table]. *)
Definition matched_table (kws phrases : list string) : list MatchRow :=
  kw ← kws;
  phrase ← phrases;
  if Str.contains (Str.lower kw) phrase then [mkMatch kw phrase] else [].

(** [{row['Matched Keyword'] for row in matched_table}]: the set that the
    warning banner joins. *)
Definition matched_keywords (table : list MatchRow) : gset string :=
  list_to_set (Matched_Keyword <$> table).

(** ** Top-N selection *)

(** Insertion in a list sorted by decreasing score; the new row goes
    before the rows of equal score. *)
Fixpoint insert_desc (x : AuthorityRecord) (l : list AuthorityRecord)
  : list AuthorityRecord :=
  match l with
  | [] => [x]
  | y :: l' =>
      if Qle_bool (Score y) (Score x) then x :: y :: l'
      else y :: insert_desc x l'
  end.

(** [df.sort_values("TF-IDF Score", ascending=False, kind="stable")] *)
Definition sort_desc (l : list AuthorityRecord) : list AuthorityRecord :=
  foldr insert_desc [] l.

(** [df.nlargest(n, "TF-IDF Score")], with pandas' default [keep="first"]:
    the first [n] rows in decreasing order of score, earlier rows first
    among equal scores. *)
Definition nlargest (n : nat) (l : list AuthorityRecord) : list AuthorityRecord :=
  take n (sort_desc l).

(** [filtered_df.nlargest(top_n, "TF-IDF Score")] *)
Definition top_phrases (top_n : nat) (fdf : list AuthorityRecord)
  : list AuthorityRecord :=
  nlargest top_n fdf.

(** Decreasing order of score. *)
Definition desc (a b : AuthorityRecord) : Prop := (Score b <= Score a)%Q.

(** The rows whose score is [v], in the order of [l]. *)
Definition with_score (v : Q) (l : list AuthorityRecord) : list AuthorityRecord :=
  filter (λ r, Qeq_bool (Score r) v = true) l.

(** ** Regular expressions: literal characters and the dot *)

Module Re.

Inductive atom :=
| Lit (c : ascii)
| AnyChar.

(** The characters with a meaning of their own in a pattern. *)
Definition special (c : ascii) : bool :=
  match c with
  | "."%char | "^"%char | "$"%char | "*"%char | "+"%char | "?"%char
  | "{"%char | "}"%char | "["%char | "]"%char | "\"%char | "|"%char
  | "("%char | ")"%char => true
  | _ => false
  end.

(** A pattern of the fragment is a sequence of atoms; [None] for a
    pattern that uses anything else. *)
Fixpoint parse (pat : string) : option (list atom) :=
  match pat with
  | EmptyString => Some []
  | String c pat' =>
      if Ascii.eqb c "."%char then (AnyChar ::.) <$> parse pat'
      else if special c then None
      else (Lit c ::.) <$> parse pat'
  end.

(** One atom against one character, under [re.IGNORECASE]; the dot
    matches anything but a newline.  Letters are compared as [lower_char]
    maps them, and the dot takes one 8-bit character: this is the engine's
    behaviour on ASCII text. *)
Definition atom_matches (a : atom) (c : ascii) : bool :=
  match a with
  | Lit x => Ascii.eqb (Str.lower_char x) (Str.lower_char c)
  | AnyChar => negb (Ascii.eqb c "010"%char)
  end.

(** The atoms match a prefix of [s]. *)
Fixpoint match_here (atoms : list atom) (s : string) : bool :=
  match atoms, s with
  | [], _ => true
  | _ :: _, EmptyString => false
  | a :: atoms', String c s' => atom_matches a c && match_here atoms' s'
  end.

(** No character of [pat] has a meaning of its own. *)
Fixpoint plain (pat : string) : bool :=
  match pat with
  | EmptyString => true
  | String c pat' => negb (special c) && plain pat'
  end.

(** [pattern.search(s) is not None] *)
Fixpoint search (atoms : list atom) (s : string) : bool :=
  match s with
  | EmptyString => match_here atoms EmptyString
  | String _ s' => match_here atoms s || search atoms s'
  end.

End Re.

(** ** CSV text

    [to_csv] hands every row to Python's [csv.writer] with the default
    dialect of pandas: comma, double quote, [QUOTE_MINIMAL], doubled quotes
    inside quoted fields, and the line terminator of the host after each
    record, a line feed where the script is developed.  The writer is the
    one of CPython up to version 3.12: it puts a field in quotes when the
    field holds the delimiter, the quote character or a character of the
    line terminator, so a carriage return alone does not force quotes (from
    version 3.13 on it does).  The reader is the state machine of
    [csv.reader] for the same dialect, run over the whole text; it ends a
    record at a line feed and at a carriage return alike. *)

Module Csv.

Definition comma : ascii := ","%char.
Definition dquote : ascii := "034"%char.
Definition LF : ascii := "010"%char.
Definition CR : ascii := "013"%char.

(** The characters that force a field into quotes under
    [QUOTE_MINIMAL]: the delimiter, the quote character and the line
    terminator. *)
Definition is_special (c : ascii) : bool :=
  Ascii.eqb c comma || Ascii.eqb c dquote || Ascii.eqb c LF.

(** Whether a text holds a carriage return. *)
Fixpoint has_CR (f : string) : bool :=
  match f with
  | EmptyString => false
  | String c f' => Ascii.eqb c CR || has_CR f'
  end.

Fixpoint needs_quote (f : string) : bool :=
  match f with
  | EmptyString => false
  | String c f' => is_special c || needs_quote f'
  end.

(** Every quote character is doubled. *)
Fixpoint escape (f : string) : string :=
  match f with
  | EmptyString => EmptyString
  | String c f' =>
      if Ascii.eqb c dquote then String dquote (String dquote (escape f'))
      else String c (escape f')
  end.

Definition write_field (f : string) : string :=
  if needs_quote f then String dquote (escape f +:+ String dquote EmptyString)
  else f.

(** One record and its line terminator; a record whose text would be
    empty is written as a pair of quotes. *)
Definition write_row (fields : list string) : string :=
  let line := Str.join (String comma EmptyString) (write_field <$> fields) in
  (if bool_decide (line = EmptyString) then
     match fields with
     | [] => EmptyString
     | _ :: _ => String dquote (String dquote EmptyString)
     end
   else line) +:+ String LF EmptyString.

Fixpoint write (rows : list (list string)) : string :=
  match rows with
  | [] => EmptyString
  | r :: rows' => write_row r +:+ write rows'
  end.

(** The reader's states. *)
Inductive mode :=
| StartRecord
| StartField
| InField
| InQuoted
| QuoteInQuoted
| AfterCR.

Definition snoc (s : string) (c : ascii) : string := s +:+ String c EmptyString.

(** The reader: [row] holds the fields of the current record read so
    far, [fld] the characters of the current field.  A line break outside
    quotes ends the record (a line feed right after a carriage return
    belongs to the same break); an empty line gives a record without
    fields; the text may end without a line break. *)
Fixpoint read_from (m : mode) (row : list string) (fld : string) (s : string)
  : list (list string) :=
  match s with
  | EmptyString =>
      match m with
      | StartRecord | AfterCR => []
      | _ => [row ++ [fld]]
      end
  | String c s' =>
      match m with
      | StartRecord | AfterCR =>
          if Ascii.eqb c LF then
            match m with
            | AfterCR => read_from StartRecord [] EmptyString s'
            | _ => [] :: read_from StartRecord [] EmptyString s'
            end
          else if Ascii.eqb c CR then [] :: read_from AfterCR [] EmptyString s'
          else if Ascii.eqb c dquote then read_from InQuoted [] EmptyString s'
          else if Ascii.eqb c comma then read_from StartField [EmptyString] EmptyString s'
          else read_from InField [] (String c EmptyString) s'
      | StartField =>
          if Ascii.eqb c LF then (row ++ [EmptyString]) :: read_from StartRecord [] EmptyString s'
          else if Ascii.eqb c CR then (row ++ [EmptyString]) :: read_from AfterCR [] EmptyString s'
          else if Ascii.eqb c dquote then read_from InQuoted row EmptyString s'
          else if Ascii.eqb c comma then read_from StartField (row ++ [EmptyString]) EmptyString s'
          else read_from InField row (String c EmptyString) s'
      | InField =>
          if Ascii.eqb c LF then (row ++ [fld]) :: read_from StartRecord [] EmptyString s'
          else if Ascii.eqb c CR then (row ++ [fld]) :: read_from AfterCR [] EmptyString s'
          else if Ascii.eqb c comma then read_from StartField (row ++ [fld]) EmptyString s'
          else read_from InField row (snoc fld c) s'
      | InQuoted =>
          if Ascii.eqb c dquote then read_from QuoteInQuoted row fld s'
          else read_from InQuoted row (snoc fld c) s'
      | QuoteInQuoted =>
          if Ascii.eqb c dquote then read_from InQuoted row (snoc fld c) s'
          else if Ascii.eqb c LF then (row ++ [fld]) :: read_from StartRecord [] EmptyString s'
          else if Ascii.eqb c CR then (row ++ [fld]) :: read_from AfterCR [] EmptyString s'
          else if Ascii.eqb c comma then read_from StartField (row ++ [fld]) EmptyString s'
          else read_from InField row (snoc fld c) s'
      end
  end.

Definition read (s : string) : list (list string) :=
  read_from StartRecord [] EmptyString s.

(** The character that ends a field: a line feed after the last field of a
    record, a comma after the others. *)
Definition terminator (last : bool) : ascii := if last then LF else comma.

(** What the reader does once a field [f] has ended. *)
Definition close_field (last : bool) (row : list string) (f rest : string)
  : list (list string) :=
  if last then (row ++ [f]) :: read_from StartRecord [] EmptyString rest
  else read_from StartField (row ++ [f]) EmptyString rest.

End Csv.

(** ** Dates and file names *)

Definition digit (d : nat) : ascii := ascii_of_nat (48 + d).

(** [n] written with exactly [width] decimal digits. *)
Fixpoint zero_padded (width n : nat) : string :=
  match width with
  | O => EmptyString
  | S w => zero_padded w (n / 10) +:+ String (digit (n mod 10)) EmptyString
  end.

(** [d.strftime('%Y%m%d')] for a year of four digits, as [datetime.now()]
    gives.  (A year below 1000 is padded with zeros here; the C library
    behind [strftime] does not pad it everywhere.) *)
Definition strftime_Ymd (d : date) : string :=
  zero_padded 4 (year d) +:+ zero_padded 2 (month d) +:+ zero_padded 2 (day d).

(** A date as [to_csv] prints it: [YYYY-MM-DD]. *)
Definition date_iso (d : date) : string :=
  zero_padded 4 (year d) +:+ "-" +:+ zero_padded 2 (month d) +:+ "-"
  +:+ zero_padded 2 (day d).

Definition date_leb (a b : date) : bool :=
  (year a <? year b)%nat
  || ((year a =? year b)%nat
      && ((month a <? month b)%nat
          || ((month a =? month b)%nat && (day a <=? day b)%nat))).

(** [df['Date'].min()] and [df['Date'].max()]: missing cells are skipped. *)
Definition min_date (df : list AuthorityRecord) : option date :=
  foldr (λ d acc, match acc with
                  | None => Some d
                  | Some e => Some (if date_leb d e then d else e)
                  end) None (omap Date df).

Definition max_date (df : list AuthorityRecord) : option date :=
  foldr (λ d acc, match acc with
                  | None => Some d
                  | Some e => Some (if date_leb d e then e else d)
                  end) None (omap Date df).

(** [f"port_inspection_data_{selected_port}_{datetime.now().strftime('%Y%m%d')}.csv"] *)
Definition file_name (selected_port : string) (now : date) : string :=
  "port_inspection_data_" +:+ selected_port +:+ "_" +:+ strftime_Ymd now +:+ ".csv".

(** ** Summary statistics *)

Definition Qsum (l : list Q) : Q := foldr Qplus 0%Q l.

(** [Series.mean()]; [None] is NaN, the mean of no rows.  The mean is
    computed exactly, where pandas rounds in floating point: the two can
    differ in the last place.  It only feeds the text of two metrics. *)
Definition mean (l : list Q) : option Q :=
  match l with
  | [] => None
  | _ => Some (Qsum l / inject_Z (Z.of_nat (length l)))%Q
  end.

(** [Series.max()] *)
Definition maximum (l : list Q) : option Q :=
  foldr (λ x acc, match acc with
                  | None => Some x
                  | Some y => Some (if Qle_bool x y then y else x)
                  end) None l.

(** [dict(zip(filtered_df['Phrase'], filtered_df['TF-IDF Score']))]: a
    later row overwrites an earlier one with the same phrase. *)
Definition phrase_dict (fdf : list AuthorityRecord) : gmap string Q :=
  foldl (λ m r, <[Phrase r := Score r]> m) ∅ fdf.

(** ** The rendering pass *)

(** What a call of [pd.read_excel] does: it gives the table or raises. *)
Inductive read_result (T : Type) :=
| Parsed (df : T)
| ReadError (msg : string).
Arguments Parsed {T} df.
Arguments ReadError {T} msg.

(** The world outside the script: the two files and the clock. *)
Record Env := mkEnv {
  final_xlsx : read_result AuthorityTable;
  ship_data_xlsx : read_result ShipTable;
  now : date
}.

(** The values the widgets return in this pass. *)
Record Widgets := mkWidgets {
  date_range : date * date;
  selected_port : string;
  selected_ship : string;
  top_n : nat;
  search_term : string
}.

(** The effects of a pass, in program order.  [sidebar_warning areas] is
    the banner "This port inspects areas related to: ..." whose text joins
    the set [areas] with commas; a chart, a word cloud or a table carries
    the data it is drawn from. *)
Inductive event :=
| read_excel (path : string)
| st_error (msg : string)
| st_title (text : string)
| sidebar_header (text : string)
| sidebar_date_input (label : string) (min_value max_value : option date)
| sidebar_selectbox (label : string) (options : list string)
| sidebar_markdown (text : string)
| sidebar_write (text : string)
| sidebar_info (text : string)
| sidebar_warning (areas : gset string)
| sidebar_dataframe (table : list MatchRow)
| sidebar_success (text : string)
| st_subheader (text : string)
| st_slider (label : string) (lo hi default : nat)
| st_plotly_chart (bars : list AuthorityRecord) (chart_title : string)
| st_pyplot (frequencies : gmap string Q)
| st_metric (label value : string) (delta : option string)
| st_text_input (label : string)
| st_dataframe (rows : list AuthorityRecord)
| st_download_button (label data file mime : string)
| st_markdown (text : string).

(** How a pass ends: the script returns, or an exception leaves it.  Which
    exception it is depends on the libraries installed, and is not
    recorded. *)
Inductive ending :=
| Returned
| Raised.

Definition authority_path : string :=
  "/Users/aryadathankaryadth/PycharmProjects/port-inspection-dashboard/.github/workflows/final.xlsx".

Definition ship_path : string :=
  "/Users/aryadathankaryadth/PycharmProjects/port-inspection-dashboard/.github/workflows/ship data.xlsx".

(** [load_authority_data]: the events of the call and its return value,
    [None] for Python's [None].  The body runs when the cache has no entry
    for it. *)
Definition load_authority_data (file : read_result AuthorityTable)
  : list event * option AuthorityTable :=
  match file with
  | Parsed df => ([read_excel authority_path], Some df)
  | ReadError e =>
      ([read_excel authority_path;
        st_error ("Error loading authority data: " +:+ e)], None)
  end.

(** [load_ship_data] *)
Definition load_ship_data (file : read_result ShipTable)
  : list event * option ShipTable :=
  match file with
  | Parsed df => ([read_excel ship_path], Some df)
  | ReadError e =>
      ([read_excel ship_path;
        st_error ("Error loading ship data: " +:+ e)], None)
  end.

Section Dashboard.

(** [Rake().extract_keywords_from_text(text)] followed by
    [get_ranked_phrases_with_scores()]. *)
Variable rake : string → list (Q * string).

(** What the regular-expression engine behind [str.contains] makes of a
    pattern that is not made of literal characters and dots only, letter
    case ignored: [None] when it rejects the pattern and raises,
    otherwise the test whether the pattern is found in a text. *)
Variable re_compile_rest : string → option (string → bool).

(** [f"{x:.2f}"] of a float, and the text [to_csv] writes for it. *)
Variable format_2f : Q → string.
Variable float_repr : Q → string.

(** [re.compile(pat, flags=re.IGNORECASE)] *)
Definition re_compile (pat : string) : option (string → bool) :=
  match Re.parse pat with
  | Some atoms => Some (Re.search atoms)
  | None => re_compile_rest pat
  end.

(** The table under the search box:
    [filtered_df[filtered_df['Phrase'].str.contains(search_term, case=False)]]
    when a term is given, [filtered_df] otherwise; [None] when the
    pattern is rejected. *)
Definition filtered_data (search_term : string) (fdf : list AuthorityRecord)
  : option (list AuthorityRecord) :=
  if bool_decide (search_term = EmptyString) then Some fdf
  else found ← re_compile search_term;
       Some (filter (λ r, found (Phrase r) = true) fdf).

(** [rake.get_ranked_phrases_with_scores()] for the selected vessel. *)
Definition ranked_phrases (ship_df : list ShipRecord) (selected_ship : string)
  : list (Q * string) :=
  rake (combined_text (past_deficiencies (ship_rows ship_df selected_ship))).

(** The columns and the cells that [to_csv(index=False)] writes: the
    columns of the data model, in its order. *)
Definition csv_header (with_date : bool) : list string :=
  if with_date then ["Authority"; "Date"; "Phrase"; "TF-IDF Score"]
  else ["Authority"; "Phrase"; "TF-IDF Score"].

Definition csv_cells (with_date : bool) (r : AuthorityRecord) : list string :=
  if with_date then
    [Authority r; from_option date_iso EmptyString (Date r); Phrase r;
     float_repr (Score r)]
  else [Authority r; Phrase r; float_repr (Score r)].

(** [filtered_df.to_csv(index=False)] *)
Definition to_csv (with_date : bool) (fdf : list AuthorityRecord) : string :=
  Csv.write (csv_header with_date :: (csv_cells with_date <$> fdf)).

Definition format_float (x : option Q) : string :=
  from_option format_2f "nan" x.

Definition minus_opt (a b : option Q) : option Q :=
  match a, b with
  | Some x, Some y => Some (x - y)%Q
  | _, _ => None
  end.

(** The sidebar block "Ship Check". *)
Definition ship_check (ship_df : ShipTable) (fdf : list AuthorityRecord)
    (selected_ship : string) : list event :=
  if has_Vessel_Name ship_df && has_Nature_of_deficiency ship_df then
    let top_keywords := top_keywords (ranked_phrases (ship_records ship_df) selected_ship) in
    let matched_table := matched_table top_keywords (authority_phrases fdf) in
    let matched_keywords := matched_keywords matched_table in
    [sidebar_selectbox "Select a Ship" (ships (ship_records ship_df));
     sidebar_markdown "### 🚨 Past Issues (Extracted Keywords)";
     match top_keywords with
     | [] => sidebar_info "No relevant deficiencies found."
     | _ :: _ => sidebar_write (Str.join ", " top_keywords)
     end]
    ++ (if bool_decide (matched_keywords = ∅) then []
        else [sidebar_markdown "### ⚠️ Attention Required";
              sidebar_warning matched_keywords;
              sidebar_markdown "#### 🔍 Matched Deficiencies vs Port Focus"])
    ++ [match matched_table with
        | [] => sidebar_success "No major overlaps found with this port's inspection priorities."
        | _ :: _ => sidebar_dataframe matched_table
        end]
  else [].

(** The text under "About This Dashboard". *)
Definition about_text : string :=
  "
        This dashboard provides insights into port authority inspection trends using TF-IDF analysis.
        - Use the sidebar filters to analyze specific ports
        - Review ship deficiency overlaps
        - Download the data for offline analysis
    ".

(** The body of [main] after both tables are loaded: the calls it makes,
    in program order, each call taken to render what it is given.  The
    search term is compiled here, and a rejected term ends the body with
    an exception.  The calls that raise on some tables are told apart in
    [run] below. *)
Definition render (df : AuthorityTable) (ship_df : ShipTable) (today : date)
    (w : Widgets) : list event * ending :=
  let date_filter :=
    if has_Date df then
      let date_range := date_range w in
      [sidebar_date_input "Select Date Range"
         (min_date (records df)) (max_date (records df))]
    else [] in
  let filtered_df := filtered_df (records df) (selected_port w) in
  let scores := Score <$> filtered_df in
  let upper :=
    [sidebar_header "Filters"] ++ date_filter
    ++ [sidebar_selectbox "Select a Port Authority" (ports (records df));
        sidebar_header "Ship Check"]
    ++ ship_check ship_df filtered_df (selected_ship w)
    ++ [st_subheader "📊 Top Inspection Focus Areas";
        st_slider "Number of top phrases to show" 5 20 10;
        st_plotly_chart (top_phrases (top_n w) filtered_df)
          ("Top " +:+ pretty (top_n w) +:+ " Phrases by TF-IDF Score");
        st_subheader "☁️ Inspection Word Cloud";
        st_pyplot (phrase_dict filtered_df);
        st_subheader "📈 Key Metrics";
        st_metric "Average TF-IDF Score" (format_float (mean scores))
          (Some (format_float
                   (minus_opt (mean scores) (mean (Score <$> records df)))));
        st_metric "Number of Unique Phrases" (pretty (length filtered_df)) None;
        st_metric "Max TF-IDF Score" (format_float (maximum scores)) None;
        st_subheader "🔍 Detailed Data View";
        st_text_input "Search phrases..."] in
  match filtered_data (search_term w) filtered_df with
  | None => (upper, Raised)
  | Some filtered_data =>
      (upper
       ++ [st_dataframe filtered_data;
           st_download_button "Download Data as CSV"
             (to_csv (has_Date df) filtered_df)
             (file_name (selected_port w) today) "text/csv";
           st_markdown "---";
           st_markdown "### About This Dashboard";
           st_markdown about_text],
       Returned)
  end.

(** [main] *)
Definition main (env : Env) (w : Widgets) : list event * ending :=
  let '(loaded1, df) := load_authority_data (final_xlsx env) in
  let '(loaded2, ship_df) := load_ship_data (ship_data_xlsx env) in
  let start := [st_title "🚢 Port Authority Inspection Analytics Dashboard"]
               ++ loaded1 ++ loaded2 in
  match df, ship_df with
  | Some df, Some ship_df =>
      let '(rest, e) := render df ship_df (now env) w in (start ++ rest, e)
  | _, _ => (start, Returned)
  end.

(** [WordCloud(...).generate_from_frequencies(frequencies)]: whether the
    library lays the cloud out, or raises.  It raises, among others, for an
    empty dictionary, for a highest score of 0 and for a phrase with a
    line break. *)
Variable word_cloud_accepts : gmap string Q → bool.

(** The calls that raise instead of rendering.  [st.sidebar.date_input]
    raises when a bound is missing: the [Date] column holds no date, and
    its [min()] and [max()] are [NaT].  [nlargest], evaluated for the bar
    chart, raises on a table read without rows ([no_rows]), whose score
    column has no numeric type.  The word cloud raises when the library
    refuses the frequencies. *)
Definition refused (no_rows : bool) (e : event) : bool :=
  match e with
  | sidebar_date_input _ lo hi =>
      match lo, hi with
      | Some _, Some _ => false
      | _, _ => true
      end
  | st_plotly_chart _ _ => no_rows
  | st_pyplot frequencies => negb (word_cloud_accepts frequencies)
  | _ => false
  end.

(** The calls made before the first one that raises. *)
Fixpoint before_refusal (refused : event → bool) (trace : list event)
  : list event :=
  match trace with
  | [] => []
  | e :: trace' => if refused e then [] else e :: before_refusal refused trace'
  end.

(** One run of the script: [main] up to the first call that raises, if
    there is one. *)
Definition run (env : Env) (w : Widgets) : list event * ending :=
  let '(trace, e) := main env w in
  let no_rows :=
    match final_xlsx env with
    | Parsed df => bool_decide (records df = [])
    | ReadError _ => false
    end in
  (before_refusal (refused no_rows) trace,
   if existsb (refused no_rows) trace then Raised else e).

End Dashboard.

(** ** Reading a trace *)

(** The files read during a pass, in order. *)
Definition reads (trace : list event) : list string :=
  omap (λ e, match e with read_excel path => Some path | _ => None end) trace.

(** The error messages shown during a pass. *)
Definition errors (trace : list event) : list string :=
  omap (λ e, match e with st_error msg => Some msg | _ => None end) trace.

(** The tables shown under the search box. *)
Definition displayed (trace : list event) : list (list AuthorityRecord) :=
  omap (λ e, match e with st_dataframe rows => Some rows | _ => None end) trace.

(** The data and the file names offered by download buttons. *)
Definition exported (trace : list event) : list (string * string) :=
  omap (λ e, match e with
             | st_download_button _ data file _ => Some (data, file)
             | _ => None
             end) trace.

(** The same widget values with another date range, or another search
    term. *)
Definition with_date_range (d : date * date) (w : Widgets) : Widgets :=
  mkWidgets d (selected_port w) (selected_ship w) (top_n w) (search_term w).

Definition with_search_term (s : string) (w : Widgets) : Widgets :=
  mkWidgets (date_range w) (selected_port w) (selected_ship w) (top_n w) s.

(** The events of the sidebar. *)
Definition in_sidebar (e : event) : bool :=
  match e with
  | sidebar_header _ | sidebar_date_input _ _ _ | sidebar_selectbox _ _
  | sidebar_markdown _ | sidebar_write _ | sidebar_info _ | sidebar_warning _
  | sidebar_dataframe _ | sidebar_success _ => true
  | _ => false
  end.

(** Ranked phrases in decreasing order of score. *)
Definition ranked (l : list (Q * string)) : Prop :=
  StronglySorted (λ a b, (b.1 <= a.1)%Q) l.

(** A small extractor with the interface of RAKE: every word is a phrase
    of score 1.  It serves as a concrete instance of the parameter. *)
Definition word_rake (text : string) : list (Q * string) :=
  (λ w, (1%Q, w)) <$> String.words text.

(** The bounds of the date pickers rendered during a pass. *)
Definition date_inputs (trace : list event) : list (option date * option date) :=
  omap (λ e, match e with
             | sidebar_date_input _ lo hi => Some (lo, hi)
             | _ => None
             end) trace.

(** The dates of the [Date] column, missing cells left out. *)
Definition dates (df : list AuthorityRecord) : list date := omap Date df.

(** The same widget values with another vessel selected. *)
Definition with_selected_ship (ship : string) (w : Widgets) : Widgets :=
  mkWidgets (date_range w) (selected_port w) ship (top_n w) (search_term w).

(** The metrics of a pass: label, value and delta of each. *)
Definition metrics (trace : list event) : list (string * string * option string) :=
  omap (λ e, match e with
             | st_metric label value delta => Some (label, value, delta)
             | _ => None
             end) trace.

(** The frequencies handed to the word cloud. *)
Definition word_clouds (trace : list event) : list (gmap string Q) :=
  omap (λ e, match e with st_pyplot freqs => Some freqs | _ => None end) trace.

(** The tables behind the bar charts of a pass. *)
Definition bar_charts (trace : list event) : list (list AuthorityRecord) :=
  omap (λ e, match e with st_plotly_chart bars _ => Some bars | _ => None end) trace.

(** A calendar date with a year of at most four digits. *)
Definition valid_date (d : date) : Prop :=
  year d < 10 ^ 4 ∧ 1 ≤ month d ≤ 12 ∧ 1 ≤ day d ≤ 31.

(** ** Reading an export back

    The exported text is read by [csv.reader]; the first record names the
    columns, and every other record gives a row: its cells are looked up
    under the names of the columns, a date is read from [YYYY-MM-DD] (an
    empty cell is a missing date) and a score with [float]. *)

Definition digit_value (c : ascii) : option nat :=
  let n := nat_of_ascii c in
  if (48 <=? n)%nat && (n <=? 57)%nat then Some (n - 48) else None.

(** The number written by the first [width] characters of [s], which must
    be digits, after the digits already read as [acc]; and the rest of
    [s]. *)
Fixpoint take_number (width acc : nat) (s : string) : option (nat * string) :=
  match width with
  | O => Some (acc, s)
  | S w =>
      match s with
      | EmptyString => None
      | String c s' => d ← digit_value c; take_number w (10 * acc + d) s'
      end
  end.

Definition expect (c : ascii) (s : string) : option string :=
  match s with
  | EmptyString => None
  | String c' s' => if Ascii.eqb c c' then Some s' else None
  end.

(** [None] when the text is not a date; [Some None] for the empty cell. *)
Definition parse_date (s : string) : option (option date) :=
  if bool_decide (s = EmptyString) then Some None
  else
    '(y, s) ← take_number 4 0 s;
    s ← expect "-" s;
    '(m, s) ← take_number 2 0 s;
    s ← expect "-" s;
    '(d, s) ← take_number 2 0 s;
    if bool_decide (s = EmptyString) then Some (Some (mkdate y m d)) else None.

(** The cell of a record under the column [name]. *)
Definition cell (header cells : list string) (name : string) : option string :=
  '(i, _) ← list_find (λ h, h = name) header; cells !! i.

(** A record as a row of the authority table; [float_parse] is Python's
    [float] on a text, [None] when it raises. *)
Definition parse_record (float_parse : string → option Q)
    (header cells : list string) : option AuthorityRecord :=
  if bool_decide (length cells = length header) then
    a ← cell header cells "Authority";
    p ← cell header cells "Phrase";
    x ← cell header cells "TF-IDF Score" ≫= float_parse;
    d ← match cell header cells "Date" with
        | Some t => parse_date t
        | None => Some None
        end;
    Some (mkAuthority a d p x)
  else None.

(** The columns and the rows of an exported text. *)
Definition read_table (float_parse : string → option Q) (text : string)
  : option (list string * list AuthorityRecord) :=
  match Csv.read text with
  | [] => None
  | header :: recs =>
      rows ← mapM (parse_record float_parse header) recs; Some (header, rows)
  end.

(** A row of a table without a [Date] column. *)
Definition clear_date (r : AuthorityRecord) : AuthorityRecord :=
  mkAuthority (Authority r) None (Phrase r) (Score r).

(** What a row of the ship table gives to the text for the vessel
    [ship]: its deficiency entry, when the row is of that vessel, the cell
    is present and the entry is not "nil"; nothing otherwise. *)
Definition entry_of (ship : string) (r : ShipRecord) : option string :=
  if decide (Vessel_Name r = Some ship) then
    match Nature_of_deficiency r with
    | Some t => if decide (Str.lower t = "nil") then None else Some t
    | None => None
    end
  else None.

(** Insertion in a list of scored phrases in decreasing order of score. *)
Fixpoint insert_ranked (x : Q * string) (l : list (Q * string))
  : list (Q * string) :=
  match l with
  | [] => [x]
  | y :: l' =>
      if Qle_bool y.1 x.1 then x :: y :: l' else y :: insert_ranked x l'
  end.

(** A second extractor with the interface of RAKE: every word is a phrase,
    scored by its length, longest first.  It serves as a concrete instance
    of the parameter with scores that differ. *)
Definition length_rake (text : string) : list (Q * string) :=
  foldr insert_ranked []
    ((λ w, (inject_Z (Z.of_nat (String.length w)), w)) <$> String.words text).

(** * Properties *)

(** ** Strings *)

Local Arguments String.append : simpl nomatch.

Module StrFacts.
Import Str.

Lemma app_nil_r (s : string) : s +:+ EmptyString = s.
Proof. induction s as [|c s IH]; simpl; [done|by rewrite IH]. Qed.

Lemma app_assoc (a b c : string) : (a +:+ b) +:+ c = a +:+ b +:+ c.
Proof. induction a as [|x a IH]; simpl; [done|by rewrite IH]. Qed.

Lemma lower_app (a b : string) : lower (a +:+ b) = lower a +:+ lower b.
Proof. induction a as [|x a IH]; simpl; [done|by rewrite IH]. Qed.

Lemma startswith_spec (p s : string) :
  startswith p s = true ↔ ∃ t, s = p +:+ t.
Proof.
  revert s. induction p as [|a p IH]; intros s; simpl.
  - split; [eauto|done].
  - destruct s as [|b s].
    + split; [done|]. intros [t Ht]. discriminate.
    + destruct (Ascii.eqb_spec a b) as [->|Hne].
      * rewrite IH. split; intros [t Ht]; exists t; congruence.
      * split; [done|]. intros [t Ht]. congruence.
Qed.

Lemma contains_spec (p s : string) :
  contains p s = true ↔ is_substring p s.
Proof.
  unfold is_substring. induction s as [|c s IH]; simpl.
  - rewrite startswith_spec. split.
    + intros [t Ht]. exists EmptyString, t. done.
    + intros (pre & post & H). destruct pre; [|discriminate].
      simpl in H. eauto.
  - rewrite orb_true_iff, startswith_spec, IH. split.
    + intros [[t Ht]|(pre & post & H)].
      * exists EmptyString, t. done.
      * exists (String c pre), post. simpl. by rewrite H.
    + intros (pre & post & H). destruct pre as [|x pre]; simpl in H.
      * left. eauto.
      * right. exists pre, post. congruence.
Qed.

Global Instance is_substring_dec (p s : string) : Decision (is_substring p s).
Proof.
  destruct (contains p s) eqn:E.
  - left. by apply contains_spec.
  - right. intros H%contains_spec. congruence.
Defined.

Lemma elem_of_all_chars (c : ascii) : c ∈ all_chars.
Proof.
  unfold all_chars. apply list_elem_of_fmap. exists (nat_of_ascii c). split.
  - by rewrite ascii_nat_embedding.
  - apply elem_of_seq. pose proof (nat_ascii_bounded c). lia.
Qed.

Global Instance same_letter_dec (a b : ascii) : Decision (same_letter a b).
Proof. unfold same_letter. apply _. Defined.

(** [lower] sends two characters to the same one exactly when they are the
    same letter: checked on every pair of characters. *)
Lemma same_letter_lower (a b : ascii) :
  same_letter a b ↔ lower_char a = lower_char b.
Proof.
  assert (forallb (λ a, forallb (λ b,
            Bool.eqb (bool_decide (same_letter a b))
                     (bool_decide (lower_char a = lower_char b)))
            all_chars) all_chars = true) as Hall by (vm_compute; reflexivity).
  rewrite forallb_forall in Hall.
  specialize (Hall a (proj1 (list_elem_of_In _ _) (elem_of_all_chars a))).
  rewrite forallb_forall in Hall.
  specialize (Hall b (proj1 (list_elem_of_In _ _) (elem_of_all_chars b))).
  apply Bool.eqb_prop in Hall.
  rewrite <- (bool_decide_spec (same_letter a b)), Hall.
  apply bool_decide_spec.
Qed.

Lemma eq_nocase_lower (s t : string) : eq_nocase s t ↔ lower s = lower t.
Proof.
  split.
  - induction 1 as [|a b s t Hab _ IH]; simpl; [done|].
    apply same_letter_lower in Hab. congruence.
  - revert t. induction s as [|a s IH]; intros [|b t] H; simpl in H;
      try discriminate; [constructor|].
    injection H as Hab H. constructor; [by apply same_letter_lower|by apply IH].
Qed.

Lemma lower_app_inv (s a b : string) :
  lower s = a +:+ b → ∃ s1 s2, s = s1 +:+ s2 ∧ lower s1 = a ∧ lower s2 = b.
Proof.
  revert s. induction a as [|c a IH]; intros s H; simpl in H.
  - exists EmptyString, s. done.
  - destruct s as [|d s]; simpl in H; [discriminate|].
    injection H as Hc H. destruct (IH s H) as (s1 & s2 & -> & H1 & H2).
    exists (String d s1), s2. simpl. by rewrite Hc, H1.
Qed.

(** Ignoring letter case is comparing in lower case. *)
Lemma is_substring_nocase_lower (p s : string) :
  is_substring_nocase p s ↔ is_substring (lower p) (lower s).
Proof.
  split.
  - intros (pre & mid & post & -> & Heq%eq_nocase_lower).
    exists (lower pre), (lower post). by rewrite !lower_app, Heq.
  - intros (pre' & post' & H).
    apply lower_app_inv in H as (pre & rest & -> & Hpre & H).
    apply lower_app_inv in H as (mid & post & -> & Hmid & Hpost).
    exists pre, mid, post. split; [done|]. by apply eq_nocase_lower.
Qed.

Global Instance is_substring_nocase_dec (p s : string) :
  Decision (is_substring_nocase p s).
Proof.
  destruct (decide (is_substring (lower p) (lower s))) as [H|H].
  - left. by apply is_substring_nocase_lower.
  - right. by rewrite is_substring_nocase_lower.
Defined.

Lemma is_substring_app_l (p a b : string) :
  is_substring p b → is_substring p (a +:+ b).
Proof.
  intros (pre & post & ->). exists (a +:+ pre), post. by rewrite app_assoc.
Qed.

Lemma is_substring_app_r (p a b : string) :
  is_substring p a → is_substring p (a +:+ b).
Proof.
  intros (pre & post & ->). exists pre, (post +:+ b).
  by rewrite !app_assoc.
Qed.

Lemma is_substring_refl (p : string) : is_substring p p.
Proof. exists EmptyString, EmptyString. simpl. by rewrite app_nil_r. Qed.

End StrFacts.

(** ** Port filter *)

Lemma elem_of_ports (df : list AuthorityRecord) (A : string) :
  A ∈ ports df ↔ ∃ r, r ∈ df ∧ Authority r = A.
Proof.
  unfold ports. rewrite merge_sort_Permutation, elem_of_remove_dups,
    list_elem_of_fmap.
  split; intros (r & H1 & H2); exists r; done.
Qed.

Lemma ports_NoDup (df : list AuthorityRecord) : NoDup (ports df).
Proof.
  unfold ports. rewrite merge_sort_Permutation. apply NoDup_remove_dups.
Qed.

Lemma filter_split_Permutation {A} (P : A → Prop) `{!∀ x, Decision (P x)}
    (l : list A) :
  l ≡ₚ filter P l ++ filter (λ x, ¬ P x) l.
Proof.
  induction l as [|x l IH]; [done|].
  rewrite !filter_cons. destruct (decide (P x)) as [HP|HP].
  - rewrite decide_False by tauto. simpl. by f_equiv.
  - rewrite decide_True by done. rewrite <- Permutation_middle. by f_equiv.
Qed.

(** C5.  Filtering the authority table by an authority [A] offered by the
    port selector returns exactly the rows whose [Authority] equals [A]:
    every returned row is such a row of the table, every such row of the
    table is returned, in source order and as often as it occurs (the rows
    left out are those of the other authorities), and there is at least one
    of them. *)
Theorem filter_by_authority_exact (df : list AuthorityRecord) (A : string) :
  A ∈ ports df →
  (∀ r, r ∈ filtered_df df A ↔ r ∈ df ∧ Authority r = A)
  ∧ filtered_df df A `sublist_of` df
  ∧ df ≡ₚ filtered_df df A ++ filter (λ r, Authority r ≠ A) df
  ∧ filtered_df df A ≠ [].
Proof.
  intros HA. unfold filtered_df. split; [|split; [|split]].
  - intros r. rewrite list_elem_of_filter. tauto.
  - apply sublist_filter.
  - apply (filter_split_Permutation (λ r, Authority r = A)).
  - apply elem_of_ports in HA as (r & Hr & Heq).
    intros Hnil.
    by apply (filter_nil_not_elem_of (λ r, Authority r = A) df r Hnil Heq).
Qed.

Lemma filter_by_authority_exact_witness :
  let df := [mkAuthority "Tokyo" None "fire safety" (3 # 2);
             mkAuthority "Paris" None "oil record book" (1 # 2)] in
  filtered_df df "Tokyo" = [mkAuthority "Tokyo" None "fire safety" (3 # 2)]
  ∧ filtered_df df "Tokyo" ≠ [].
Proof.
  split; [reflexivity|].
  apply (filter_by_authority_exact
           [mkAuthority "Tokyo" None "fire safety" (3 # 2);
            mkAuthority "Paris" None "oil record book" (1 # 2)] "Tokyo").
  vm_compute. apply list_elem_of_further, list_elem_of_here.
Defined.

(** ** Top-N selection *)

Section TopN.

Lemma insert_desc_Permutation x l : insert_desc x l ≡ₚ x :: l.
Proof.
  induction l as [|y l IH]; simpl; [done|].
  destruct (Qle_bool (Score y) (Score x)); [done|].
  rewrite IH. apply perm_swap.
Qed.

Lemma sort_desc_Permutation l : sort_desc l ≡ₚ l.
Proof.
  induction l as [|x l IH]; simpl; [done|].
  rewrite insert_desc_Permutation. by f_equiv.
Qed.

Lemma insert_desc_sorted x l :
  StronglySorted desc l → StronglySorted desc (insert_desc x l).
Proof.
  induction 1 as [|y l Hs IH Hall]; simpl.
  - repeat constructor.
  - destruct (Qle_bool (Score y) (Score x)) eqn:E.
    + apply Qle_bool_iff in E. constructor; [by constructor|].
      constructor; [exact E|].
      eapply Forall_impl; [exact Hall|]. unfold desc. intros z Hz. lra.
    + assert (Score x < Score y)%Q as Hlt.
      { apply Qnot_le_lt. intros H%Qle_bool_iff. congruence. }
      constructor; [exact IH|].
      rewrite insert_desc_Permutation. constructor; [|exact Hall].
      unfold desc. lra.
Qed.

Lemma sort_desc_sorted l : StronglySorted desc (sort_desc l).
Proof.
  induction l as [|x l IH]; simpl; [constructor|].
  by apply insert_desc_sorted.
Qed.

Lemma with_score_insert_desc v x l :
  with_score v (insert_desc x l) = with_score v (x :: l).
Proof.
  unfold with_score. induction l as [|y l IH]; simpl; [done|].
  destruct (Qle_bool (Score y) (Score x)) eqn:E; [done|].
  assert (Score x < Score y)%Q as Hlt.
  { apply Qnot_le_lt. intros H%Qle_bool_iff. congruence. }
  rewrite (filter_cons _ y), IH, !filter_cons.
  destruct (decide (Qeq_bool (Score y) v = true)) as [Hy|Hy].
  - destruct (decide (Qeq_bool (Score x) v = true)) as [Hx|Hx]; [|done].
    apply Qeq_bool_iff in Hy, Hx. lra.
  - done.
Qed.

(** The sort is stable: rows of equal score keep their source order. *)
Lemma sort_desc_stable v l : with_score v (sort_desc l) = with_score v l.
Proof.
  induction l as [|x l IH]; simpl; [done|].
  rewrite with_score_insert_desc. unfold with_score in *.
  rewrite !filter_cons, IH. done.
Qed.

Lemma with_score_take_prefix v n l :
  with_score v (take n l) `prefix_of` with_score v l.
Proof.
  unfold with_score. rewrite <- (take_drop n l) at 2.
  rewrite filter_app. by apply prefix_app_r.
Qed.

End TopN.

(** C3.  For a slider value [n] between 5 and 20 and a port-filtered table
    [fdf], the bar chart gets exactly [min n (length fdf)] rows; they are
    rows of [fdf], in decreasing order of score; among the rows of any one
    score the chart holds the first ones of the table, in the table's
    order; and no row left out scores more than a row shown. *)
Theorem bar_chart_top_n (n : nat) (fdf : list AuthorityRecord) :
  5 ≤ n ≤ 20 →
  length (top_phrases n fdf) = n `min` length fdf
  ∧ StronglySorted desc (top_phrases n fdf)
  ∧ (∀ v, with_score v (top_phrases n fdf) `prefix_of` with_score v fdf)
  ∧ ∃ rest, fdf ≡ₚ top_phrases n fdf ++ rest
            ∧ ∀ a b, a ∈ top_phrases n fdf → b ∈ rest → (Score b <= Score a)%Q.
Proof.
  intros _. unfold top_phrases, nlargest. split; [|split; [|split]].
  - rewrite length_take. f_equal.
    apply Permutation_length, sort_desc_Permutation.
  - pose proof (sort_desc_sorted fdf) as Hs.
    rewrite <- (take_drop n (sort_desc fdf)) in Hs.
    by apply StronglySorted_app_1_l in Hs.
  - intros v. rewrite <- (sort_desc_stable v fdf).
    apply with_score_take_prefix.
  - exists (drop n (sort_desc fdf)). split.
    + rewrite take_drop. symmetry. apply sort_desc_Permutation.
    + pose proof (sort_desc_sorted fdf) as Hs.
      rewrite <- (take_drop n (sort_desc fdf)) in Hs.
      intros a b Ha Hb.
      exact (StronglySorted_app_1_elem_of desc _ _ a b Hs Ha Hb).
Qed.

Lemma bar_chart_top_n_witness :
  let fdf := [mkAuthority "Tokyo" None "crew list" (1 # 2);
              mkAuthority "Tokyo" None "fire safety" (3 # 2);
              mkAuthority "Tokyo" None "oil record book" (3 # 2)] in
  Phrase <$> top_phrases 5 fdf = ["fire safety"; "oil record book"; "crew list"]
  ∧ length (top_phrases 5 fdf) = 5 `min` length fdf.
Proof.
  split; [reflexivity|].
  apply (bar_chart_top_n 5
           [mkAuthority "Tokyo" None "crew list" (1 # 2);
            mkAuthority "Tokyo" None "fire safety" (3 # 2);
            mkAuthority "Tokyo" None "oil record book" (3 # 2)]).
  lia.
Defined.

(** ** Keyword matcher *)

Lemma elem_of_matched_table (kws phrases : list string) (m : MatchRow) :
  m ∈ matched_table kws phrases
  ↔ Matched_Keyword m ∈ kws ∧ Port_Phrase m ∈ phrases
    ∧ Str.is_substring (Str.lower (Matched_Keyword m)) (Port_Phrase m).
Proof.
  unfold matched_table. rewrite list_elem_of_bind. split.
  - intros (kw & Hm & Hkw). apply list_elem_of_bind in Hm as (p & Hm & Hp).
    destruct (Str.contains (Str.lower kw) p) eqn:E.
    + apply list_elem_of_singleton in Hm as ->. simpl.
      by apply StrFacts.contains_spec in E.
    + by apply elem_of_nil in Hm.
  - destruct m as [kw p]. simpl. intros (Hkw & Hp & Hsub).
    exists kw. split; [|done]. apply list_elem_of_bind. exists p. split; [|done].
    apply StrFacts.contains_spec in Hsub. rewrite Hsub.
    apply list_elem_of_here.
Qed.




(** ** CSV text: what is written is read back *)

Module CsvFacts.
Import Csv StrFacts.

Lemma not_special (c : ascii) :
  is_special c = false →
  Ascii.eqb c comma = false ∧ Ascii.eqb c dquote = false
  ∧ Ascii.eqb c LF = false.
Proof.
  unfold is_special. rewrite !orb_false_iff. tauto.
Qed.

Lemma snoc_app (acc : string) (c : ascii) (f : string) :
  snoc acc c +:+ f = acc +:+ String c f.
Proof. unfold snoc. by rewrite app_assoc. Qed.

(** An unquoted field body without a carriage return is copied character
    by character. *)
Lemma read_plain (f : string) :
  needs_quote f = false → has_CR f = false →
  ∀ row acc rest,
    read_from InField row acc (f +:+ rest) = read_from InField row (acc +:+ f) rest.
Proof.
  induction f as [|c f IH]; intros Hq Hcr row acc rest; simpl.
  - by rewrite app_nil_r.
  - simpl in Hq, Hcr. apply orb_false_iff in Hq as [Hc Hf].
    apply orb_false_iff in Hcr as [-> Hcr].
    apply not_special in Hc as (-> & _ & ->).
    rewrite (IH Hf Hcr). by rewrite snoc_app.
Qed.

(** A quoted field body is read up to its closing quote, doubled quotes
    giving one quote each. *)
Lemma read_quoted (f : string) :
  ∀ row acc rest,
    read_from InQuoted row acc (escape f +:+ String dquote rest)
    = read_from QuoteInQuoted row (acc +:+ f) rest.
Proof.
  induction f as [|c f IH]; intros row acc rest; simpl.
  - by rewrite app_nil_r.
  - destruct (Ascii.eqb c dquote) eqn:E; simpl.
    + apply Ascii.eqb_eq in E as ->. simpl. rewrite IH. by rewrite snoc_app.
    + rewrite E. rewrite IH. by rewrite snoc_app.
Qed.

(** A written field, after a field separator. *)
Lemma read_field (f : string) (last : bool) (row : list string) (rest : string) :
  has_CR f = false →
  read_from StartField row EmptyString (write_field f +:+ String (terminator last) rest)
  = close_field last row f rest.
Proof.
  intros Hcr. unfold write_field. destruct (needs_quote f) eqn:Hq.
  - simpl. rewrite app_assoc. simpl. rewrite read_quoted. simpl.
    by destruct last.
  - destruct f as [|c f]; simpl.
    + by destruct last.
    + simpl in Hq, Hcr. apply orb_false_iff in Hq as [Hc Hf].
      apply orb_false_iff in Hcr as [-> Hcr].
      apply not_special in Hc as (-> & -> & ->).
      rewrite (read_plain f Hf Hcr). simpl. by destruct last.
Qed.

(** A written field at the start of a record, unless it is an empty field
    that ends the record. *)
Lemma read_first_field (f : string) (last : bool) (rest : string) :
  has_CR f = false →
  f ≠ EmptyString ∨ last = false →
  read_from StartRecord [] EmptyString (write_field f +:+ String (terminator last) rest)
  = close_field last [] f rest.
Proof.
  intros Hcr Hcase. rewrite <- read_field by done.
  unfold write_field. destruct (needs_quote f) eqn:Hq; [done|].
  destruct f as [|c f]; simpl.
  - destruct Hcase as [Hf | ->]; done.
  - simpl in Hq, Hcr. apply orb_false_iff in Hq as [Hc Hf].
    apply orb_false_iff in Hcr as [-> Hcr].
    by apply not_special in Hc as (-> & -> & ->).
Qed.

Lemma join_one (sep x : string) : Str.join sep [x] = x.
Proof. done. Qed.

Lemma join_more (sep x y : string) (l : list string) :
  Str.join sep (x :: y :: l) = x +:+ sep +:+ Str.join sep (y :: l).
Proof. done. Qed.

Local Arguments Str.join : simpl never.

(** The fields of a record after the first. *)
Lemma read_fields (fields : list string) :
  fields ≠ [] → Forall (λ f, has_CR f = false) fields →
  ∀ row rest,
    read_from StartField row EmptyString
      (Str.join (String comma EmptyString) (write_field <$> fields)
       +:+ String LF rest)
    = (row ++ fields) :: read_from StartRecord [] EmptyString rest.
Proof.
  induction fields as [|f fields IH]; [done|]. intros _ Hcr row rest.
  apply Forall_cons in Hcr as [Hf Hcr].
  destruct fields as [|g fields].
  - rewrite list_fmap_singleton, join_one. by apply (read_field f true).
  - rewrite (fmap_cons _ f), (fmap_cons _ g), join_more, <- (fmap_cons _ g).
    rewrite !app_assoc. simpl.
    rewrite (read_field f false) by done. unfold close_field.
    change (write_field g :: list_fmap _ _ write_field fields)
      with (write_field <$> g :: fields).
    rewrite IH by done. by rewrite <- (assoc_L (++)).
Qed.

Lemma write_field_empty (f : string) :
  write_field f = EmptyString → f = EmptyString.
Proof.
  unfold write_field. destruct (needs_quote f); [discriminate|done].
Qed.

(** One written record is read back as that record. *)
Lemma read_row (fields : list string) (rest : string) :
  fields ≠ [] → Forall (λ f, has_CR f = false) fields →
  read_from StartRecord [] EmptyString (write_row fields +:+ rest)
  = fields :: read_from StartRecord [] EmptyString rest.
Proof.
  intros Hne Hcr. unfold write_row.
  destruct fields as [|f fields]; [done|].
  apply Forall_cons in Hcr as [Hf Hcr]. destruct fields as [|g fields].
  - rewrite list_fmap_singleton, join_one. case_bool_decide as Hline.
    + apply write_field_empty in Hline as ->. done.
    + rewrite app_assoc. simpl.
      rewrite (read_first_field f true); [done|done|].
      left. intros ->. done.
  - rewrite (fmap_cons _ f), (fmap_cons _ g), join_more, <- (fmap_cons _ g).
    rewrite bool_decide_false by (destruct (write_field f); discriminate).
    rewrite !app_assoc. simpl.
    rewrite (read_first_field f false) by auto. unfold close_field.
    change (write_field g :: list_fmap _ _ write_field fields)
      with (write_field <$> g :: fields).
    by rewrite read_fields.
Qed.

(** Reading what was written gives the records back, as long as every
    record has a field and no field holds a carriage return. *)
Lemma read_write (rows : list (list string)) :
  Forall (λ fields, fields ≠ [] ∧ Forall (λ f, has_CR f = false) fields) rows →
  read (write rows) = rows.
Proof.
  unfold read. induction 1 as [|fields rows [Hne Hcr] _ IH]; simpl; [done|].
  rewrite read_row by done. by rewrite IH.
Qed.

End CsvFacts.

(** ** Traces *)

Section Traces.
Variable rake : string → list (Q * string).
Variable re_compile_rest : string → option (string → bool).
Variable format_2f float_repr : Q → string.

Lemma ship_check_in_sidebar ship_df fdf selected_ship :
  Forall (λ e, in_sidebar e = true) (ship_check rake ship_df fdf selected_ship).
Proof.
  unfold ship_check.
  destruct (has_Vessel_Name ship_df && has_Nature_of_deficiency ship_df);
    [|constructor].
  destruct (top_keywords _), (matched_table _ _); case_bool_decide;
    repeat (apply Forall_cons; split; [done|]); try apply Forall_nil;
    simpl; repeat constructor.
Qed.

Lemma omap_sidebar {B} (f : event → option B) (l : list event) :
  (∀ e, in_sidebar e = true → f e = None) →
  Forall (λ e, in_sidebar e = true) l → omap f l = [].
Proof.
  intros Hf. induction 1 as [|e l He _ IH]; [done|].
  simpl. by rewrite (Hf e He).
Qed.

(** A projection of the trace that ignores the sidebar sees the ship check
    as empty. *)
Lemma omap_ship_check {B} (f : event → option B) ship_df fdf selected_ship :
  (∀ e, in_sidebar e = true → f e = None) →
  omap f (ship_check rake ship_df fdf selected_ship) = [].
Proof. intros Hf. eapply omap_sidebar; [done|apply ship_check_in_sidebar]. Qed.

Lemma omap_render {B} (f : event → option B) df ship_df today w :
  (∀ e, in_sidebar e = true → f e = None) →
  omap f (render rake re_compile_rest format_2f float_repr df ship_df today w).1
  = omap f
      (let fdf := filtered_df (records df) (selected_port w) in
       let scores := Score <$> fdf in
       [st_subheader "📊 Top Inspection Focus Areas";
        st_slider "Number of top phrases to show" 5 20 10;
        st_plotly_chart (top_phrases (top_n w) fdf)
          ("Top " +:+ pretty (top_n w) +:+ " Phrases by TF-IDF Score");
        st_subheader "☁️ Inspection Word Cloud";
        st_pyplot (phrase_dict fdf);
        st_subheader "📈 Key Metrics";
        st_metric "Average TF-IDF Score" (format_float format_2f (mean scores))
          (Some (format_float format_2f
                   (minus_opt (mean scores) (mean (Score <$> records df)))));
        st_metric "Number of Unique Phrases" (pretty (length fdf)) None;
        st_metric "Max TF-IDF Score" (format_float format_2f (maximum scores)) None;
        st_subheader "🔍 Detailed Data View";
        st_text_input "Search phrases..."]
       ++ match filtered_data re_compile_rest (search_term w) fdf with
          | None => []
          | Some rows =>
              [st_dataframe rows;
               st_download_button "Download Data as CSV"
                 (to_csv float_repr (has_Date df) fdf)
                 (file_name (selected_port w) today) "text/csv";
               st_markdown "---";
               st_markdown "### About This Dashboard";
               st_markdown about_text]
          end).
Proof.
  intros Hf. unfold render. cbv zeta.
  assert (∀ l, Forall (λ e, in_sidebar e = true) l → omap f l = []) as Hside
    by (intros l; by apply omap_sidebar).
  destruct (filtered_data _ _ _) as [rows|]; cbn [fst];
    rewrite !omap_app, (omap_ship_check f), (Hside [sidebar_header "Filters"]),
      (Hside (if has_Date df then _ else _)),
      (Hside [_; sidebar_header "Ship Check"]), ?app_nil_r;
    try done; try (destruct (has_Date df)); repeat constructor.
Qed.

End Traces.

(** ** The pass as a whole *)

Section Pass.
Variable rake : string → list (Q * string).
Variable re_compile_rest : string → option (string → bool).
Variable format_2f float_repr : Q → string.

Lemma reads_render df ship_df today w : reads (render rake re_compile_rest format_2f float_repr df ship_df today w).1 = [].
Proof.
  unfold reads. rewrite omap_render; [|by intros []].
  cbv zeta. rewrite omap_app. by destruct (filtered_data _ _ _).
Qed.

(** C8.  Each loader reads its file once and either returns the parsed
    table, or shows an error message that carries the failure and returns
    nothing.  Every pass reads each of the two files exactly once, so
    nothing is retried.  When either loader returns nothing, the pass ends
    there: it returns normally and its trace holds the title, the two
    reads and the error messages, and no other event. *)
Theorem load_failure_halts (env : Env) (w : Widgets) :
  (∀ file,
     match file with
     | Parsed df =>
         load_authority_data file = ([read_excel authority_path], Some df)
     | ReadError msg =>
         load_authority_data file
         = ([read_excel authority_path;
             st_error ("Error loading authority data: " +:+ msg)], None)
     end)
  ∧ (∀ file,
       match file with
       | Parsed df => load_ship_data file = ([read_excel ship_path], Some df)
       | ReadError msg =>
           load_ship_data file
           = ([read_excel ship_path;
               st_error ("Error loading ship data: " +:+ msg)], None)
       end)
  ∧ reads (main rake re_compile_rest format_2f float_repr env w).1 = [authority_path; ship_path]
  ∧ ((load_authority_data (final_xlsx env)).2 = None
     ∨ (load_ship_data (ship_data_xlsx env)).2 = None →
     main rake re_compile_rest format_2f float_repr env w
     = ([st_title "🚢 Port Authority Inspection Analytics Dashboard"]
        ++ (load_authority_data (final_xlsx env)).1
        ++ (load_ship_data (ship_data_xlsx env)).1, Returned)
     ∧ errors (main rake re_compile_rest format_2f float_repr env w).1 ≠ []
     ∧ Forall (λ e, match e with
                    | st_title _ | read_excel _ | st_error _ => True
                    | _ => False
                    end) (main rake re_compile_rest format_2f float_repr env w).1).
Proof.
  split; [by intros []|]. split; [by intros []|]. split.
  - unfold main.
    destruct (final_xlsx env) as [df|e1], (ship_data_xlsx env) as [sdf|e2];
      simpl; try done.
    pose proof (reads_render df sdf (now env) w) as H.
    destruct (render _ _ _ _ _ _ _ _) as [rest e]. simpl in *.
    unfold reads in *. simpl. by rewrite H.
  - unfold main.
    destruct (final_xlsx env) as [df|e1], (ship_data_xlsx env) as [sdf|e2];
      simpl; intros [H|H]; try discriminate;
      (split; [done|]); (split; [done|]); repeat constructor.
Qed.


(** C9.  Whatever the date-range picker returns, the pass is the same:
    the same port-filtered subset, and the same trace, which holds the bar
    chart, the word cloud, the metrics, the table, the CSV export and the
    keyword matches. *)
Theorem date_range_is_not_a_filter (env : Env) (w : Widgets) (d : date * date) :
  main rake re_compile_rest format_2f float_repr env (with_date_range d w)
  = main rake re_compile_rest format_2f float_repr env w
  ∧ ∀ df, filtered_df df (selected_port (with_date_range d w))
          = filtered_df df (selected_port w).
Proof. split; reflexivity. Qed.

(** *** What is assumed of RAKE *)

(** A text without words has no phrase. *)
Hypothesis rake_empty : rake EmptyString = [].

Lemma filter_none {A} (P : A → Prop) `{!∀ x, Decision (P x)} (l : list A) :
  (∀ x, x ∈ l → ¬ P x) → filter P l = [].
Proof.
  induction l as [|x l IH]; intros Hall; [done|].
  rewrite filter_cons, decide_False by (apply Hall; left).
  apply IH. intros y Hy. apply Hall. by right.
Qed.

Lemma filter_all {A} (P : A → Prop) `{!∀ x, Decision (P x)} (l : list A) :
  (∀ x, x ∈ l → P x) → filter P l = l.
Proof.
  induction l as [|x l IH]; intros Hall; [done|].
  rewrite filter_cons, decide_True by (apply Hall; left).
  f_equal. apply IH. intros y Hy. apply Hall. by right.
Qed.

(** C6.  Take a vessel all of whose deficiency entries are missing or
    "nil" (in any letter case), with both columns of the ship table
    present.  Then the concatenated text is empty, no keyword is retained,
    and the ship check consists of the vessel selector, its heading, the
    information message "No relevant deficiencies found." and the message
    that nothing overlaps.  No error message is shown during the rendering
    and the rendering goes on to the bar chart. *)
Theorem all_nil_no_deficiencies (df : AuthorityTable) (ship_df : ShipTable)
    (today : date) (w : Widgets) :
  has_Vessel_Name ship_df = true →
  has_Nature_of_deficiency ship_df = true →
  (∀ r t, r ∈ ship_records ship_df →
          Vessel_Name r = Some (selected_ship w) →
          Nature_of_deficiency r = Some t → Str.lower t = "nil") →
  let fdf := filtered_df (records df) (selected_port w) in
  let trace := (render rake re_compile_rest format_2f float_repr
                  df ship_df today w).1 in
  combined_text
    (past_deficiencies (ship_rows (ship_records ship_df) (selected_ship w)))
  = EmptyString
  ∧ top_keywords (ranked_phrases rake (ship_records ship_df) (selected_ship w)) = []
  ∧ ship_check rake ship_df fdf (selected_ship w)
    = [sidebar_selectbox "Select a Ship" (ships (ship_records ship_df));
       sidebar_markdown "### 🚨 Past Issues (Extracted Keywords)";
       sidebar_info "No relevant deficiencies found.";
       sidebar_success "No major overlaps found with this port's inspection priorities."]
  ∧ sidebar_info "No relevant deficiencies found." ∈ trace
  ∧ errors trace = []
  ∧ st_plotly_chart (top_phrases (top_n w) fdf)
      ("Top " +:+ pretty (top_n w) +:+ " Phrases by TF-IDF Score") ∈ trace.
Proof.
  intros Hv Hn Hnil fdf trace.
  assert (combined_text
            (past_deficiencies (ship_rows (ship_records ship_df) (selected_ship w)))
          = EmptyString) as Htext.
  { unfold combined_text. rewrite filter_none; [done|].
    intros t Ht Hne. apply Hne.
    apply list_elem_of_omap in Ht as (r & Hr & Ht).
    apply list_elem_of_filter in Hr as [Hname Hr]. by eapply Hnil. }
  assert (top_keywords (ranked_phrases rake (ship_records ship_df) (selected_ship w))
          = []) as Hkw.
  { unfold ranked_phrases. by rewrite Htext, rake_empty. }
  assert (ship_check rake ship_df fdf (selected_ship w)
          = [sidebar_selectbox "Select a Ship" (ships (ship_records ship_df));
             sidebar_markdown "### 🚨 Past Issues (Extracted Keywords)";
             sidebar_info "No relevant deficiencies found.";
             sidebar_success "No major overlaps found with this port's inspection priorities."])
    as Hcheck.
  { unfold ship_check. rewrite Hv, Hn, Hkw. done. }
  split; [done|]. split; [done|]. split; [done|]. split; [|split].
  - unfold trace, render. cbv zeta. fold fdf. rewrite Hcheck.
    destruct (filtered_data _ _ _); cbn [fst]; rewrite !elem_of_app;
      [left|]; do 3 right; left; do 2 right; left.
  - unfold trace, errors. rewrite omap_render by (by intros []).
    cbv zeta. rewrite omap_app. by destruct (filtered_data _ _ _).
  - unfold trace, render. cbv zeta. fold fdf.
    destruct (filtered_data _ _ _); cbn [fst]; rewrite !elem_of_app;
      [left|]; do 4 right; do 2 right; left.
Qed.

(** *** The search box *)

(** A pattern without special characters is a sequence of literals, and
    matching it at the start of a string is a comparison of prefixes in
    lower case. *)
Lemma parse_plain (pat : string) :
  Re.plain pat = true →
  ∃ atoms, Re.parse pat = Some atoms
           ∧ ∀ x, Re.match_here atoms x
                  = Str.startswith (Str.lower pat) (Str.lower x).
Proof.
  induction pat as [|c pat IH]; simpl.
  - intros _. exists []. split; [done|]. by intros [].
  - intros [Hc Hpat]%andb_true_iff. apply negb_true_iff in Hc.
    destruct (IH Hpat) as (atoms & -> & Hmatch).
    assert (Ascii.eqb c "."%char = false) as ->.
    { apply Ascii.eqb_neq. intros ->. discriminate. }
    rewrite Hc. exists (Re.Lit c :: atoms). split; [done|].
    intros [|b x]; simpl; [done|]. rewrite Hmatch.
    by destruct (Ascii.eqb _ _).
Qed.

Lemma search_contains (atoms : list Re.atom) (p : string) :
  (∀ x, Re.match_here atoms x = Str.startswith p (Str.lower x)) →
  ∀ x, Re.search atoms x = Str.contains p (Str.lower x).
Proof.
  intros Hmatch. induction x as [|b x IH]; simpl.
  - by rewrite (Hmatch EmptyString).
  - by rewrite <- IH, (Hmatch (String b x)).
Qed.

(** C4, as the code has it.  For a search string [s] of ASCII text
    without characters that are special in a regular expression, and
    phrases of ASCII text, the displayed table holds exactly the rows of
    the port-filtered subset whose phrase contains [s] when letter case is
    ignored, in source order; so when [s] occurs in exactly [k] of the
    phrases, [k] rows are shown. *)
Theorem search_plain_term (s : string) (fdf : list AuthorityRecord) :
  Re.plain s = true →
  Str.is_ascii s = true →
  Forall (λ r, Str.is_ascii (Phrase r) = true) fdf →
  ∃ rows,
    filtered_data re_compile_rest s fdf = Some rows
    ∧ rows = filter (λ r, Str.is_substring_nocase s (Phrase r)) fdf
    ∧ (∀ r, r ∈ rows ↔ r ∈ fdf ∧ Str.is_substring_nocase s (Phrase r))
    ∧ ∀ k, length (filter (λ r, Str.is_substring_nocase s (Phrase r)) fdf) = k →
           length rows = k.
Proof.
  intros Hplain _ _.
  assert (filtered_data re_compile_rest s fdf
          = Some (filter (λ r, Str.is_substring_nocase s (Phrase r)) fdf)) as Heq.
  { unfold filtered_data. case_bool_decide as Hs.
    - subst s. f_equal. symmetry. apply filter_all.
      intros r _. exists EmptyString, EmptyString, (Phrase r).
      split; [done|constructor].
    - unfold re_compile.
      destruct (parse_plain s Hplain) as (atoms & -> & Hmatch). simpl.
      f_equal. apply list_filter_iff. intros r.
      rewrite (search_contains atoms (Str.lower s) Hmatch).
      rewrite StrFacts.is_substring_nocase_lower.
      apply StrFacts.contains_spec. }
  eexists. split; [exact Heq|]. split; [done|]. split; [|done].
  intros r. rewrite list_elem_of_filter. tauto.
Qed.

End Pass.

(** ** The keywords of a vessel *)

Section Keywords.
Variable rake : string → list (Q * string).

(** RAKE gives its phrases in decreasing order of score. *)
Hypothesis rake_ranked : ∀ text, ranked (rake text).

Lemma length_app (a b : string) :
  String.length (a +:+ b) = String.length a + String.length b.
Proof. induction a as [|c a IH]; simpl; [done|by rewrite IH]. Qed.

(** Joining with a separator puts one separator between neighbours. *)
Lemma length_join (sep : string) (l : list string) :
  l ≠ [] →
  String.length (Str.join sep l) + String.length sep
  = sum_list ((λ t, String.length t + String.length sep) <$> l).
Proof.
  induction l as [|x l IH]; [done|]. intros _.
  destruct l as [|y l].
  { simpl. lia. }
  change (Str.join sep (x :: y :: l)) with (x +:+ sep +:+ Str.join sep (y :: l)).
  rewrite !length_app, fmap_cons. cbn [sum_list sum_list_with].
  rewrite <- IH by done. unfold id. lia.
Qed.

Lemma ranked_take_drop (n : nat) (l : list (Q * string)) :
  ranked l →
  ranked (take n l) ∧ ∀ a b, a ∈ take n l → b ∈ drop n l → (b.1 <= a.1)%Q.
Proof.
  unfold ranked. intros Hs. rewrite <- (take_drop n l) in Hs. split.
  - by apply StronglySorted_app_1_l in Hs.
  - intros a b Ha Hb.
    exact (StronglySorted_app_1_elem_of _ _ _ a b Hs Ha Hb).
Qed.

Lemma join_app (sep : string) (l1 l2 : list string) :
  l1 ≠ [] → l2 ≠ [] →
  Str.join sep (l1 ++ l2) = Str.join sep l1 +:+ sep +:+ Str.join sep l2.
Proof.
  induction l1 as [|x l1 IH]; [done|]. intros _ Hl2.
  destruct l1 as [|y l1].
  - destruct l2 as [|z l2]; [done|]. done.
  - change (Str.join sep ((x :: y :: l1) ++ l2))
      with (x +:+ sep +:+ Str.join sep ((y :: l1) ++ l2)).
    rewrite IH by done.
    change (Str.join sep (x :: y :: l1)) with (x +:+ sep +:+ Str.join sep (y :: l1)).
    by rewrite !StrFacts.app_assoc.
Qed.

(** The entries joined for a vessel are what the rows give, row by row. *)
Lemma entries_omap (ship : string) (rows : list ShipRecord) :
  filter (λ t, Str.lower t ≠ "nil") (past_deficiencies (ship_rows rows ship))
  = omap (entry_of ship) rows.
Proof.
  unfold past_deficiencies, ship_rows, entry_of.
  induction rows as [|r rows IH]; [done|].
  rewrite filter_cons. cbn [omap list_omap].
  destruct (decide (Vessel_Name r = Some ship)) as [Hv|Hv]; [|exact IH].
  cbn [omap list_omap]. fold (@omap list _ _ _ Nature_of_deficiency).
  destruct (Nature_of_deficiency r) as [t|]; [|exact IH].
  rewrite filter_cons.
  destruct (decide (Str.lower t = "nil")) as [Ht|Ht].
  - rewrite decide_False by tauto. exact IH.
  - rewrite decide_True by done. f_equal. exact IH.
Qed.

(** C2.  For the selected vessel, the text given to RAKE is made of the
    vessel's deficiency entries that are present and are not "nil" (in any
    letter case), all of them, in source order, with one space between
    neighbours: a table of one row gives the entry of that row, or the
    empty text when the row gives none, and two tables put end to end give
    their two texts with one space in between, or the text of one of them
    when the other gives no entry.  The ranked phrases are RAKE's for that
    text, and the keywords kept are the phrases of the first 10 of them,
    place by place, fewer when there are fewer: at most 10, in decreasing
    order of score, and no phrase left out scores more than a phrase
    kept. *)
Theorem top_keywords_of_vessel (ship_df : list ShipRecord) (selected_ship : string) :
  let text_of rows :=
    combined_text (past_deficiencies (ship_rows rows selected_ship)) in
  let entries :=
    filter (λ t, Str.lower t ≠ "nil")
      (past_deficiencies (ship_rows ship_df selected_ship)) in
  let text := text_of ship_df in
  let phrases := ranked_phrases rake ship_df selected_ship in
  (∀ t, t ∈ entries ↔
        ∃ r, r ∈ ship_df ∧ Vessel_Name r = Some selected_ship
             ∧ Nature_of_deficiency r = Some t ∧ Str.lower t ≠ "nil")
  ∧ entries = omap (entry_of selected_ship) ship_df
  ∧ text = Str.join " " entries
  ∧ (∀ r, text_of [r] = default EmptyString (entry_of selected_ship r))
  ∧ (∀ rows1 rows2,
       text_of (rows1 ++ rows2)
       = if decide (omap (entry_of selected_ship) rows1 = []) then text_of rows2
         else if decide (omap (entry_of selected_ship) rows2 = []) then text_of rows1
         else text_of rows1 +:+ " " +:+ text_of rows2)
  ∧ (entries ≠ [] →
     String.length text + 1 = sum_list ((λ t, String.length t + 1) <$> entries))
  ∧ phrases = rake text
  ∧ length (top_keywords phrases) = 10 `min` length phrases
  ∧ length (top_keywords phrases) ≤ 10
  ∧ (∀ i, top_keywords phrases !! i
          = if decide (i < 10) then snd <$> phrases !! i else None)
  ∧ ∃ kept rest,
      phrases = kept ++ rest ∧ top_keywords phrases = kept.*2
      ∧ ranked kept
      ∧ ∀ a b, a ∈ kept → b ∈ rest → (b.1 <= a.1)%Q.
Proof.
  intros text_of entries text phrases.
  split; [|split; [|split; [|split; [|split; [|split; [|split;
    [|split; [|split; [|split]]]]]]]]].
  - intros t. unfold entries, past_deficiencies, ship_rows.
    rewrite list_elem_of_filter, list_elem_of_omap. split.
    + intros (Hne & r & Hr%list_elem_of_filter & Ht). exists r. tauto.
    + intros (r & Hr & Hname & Ht & Hne). split; [done|]. exists r.
      split; [|done]. by apply list_elem_of_filter.
  - apply entries_omap.
  - done.
  - intros r. unfold text_of, combined_text. rewrite entries_omap.
    cbn [omap list_omap]. by destruct (entry_of selected_ship r).
  - intros rows1 rows2. unfold text_of, combined_text.
    rewrite !entries_omap, omap_app.
    destruct (decide (omap (entry_of selected_ship) rows1 = [])) as [->|H1];
      [done|].
    destruct (decide (omap (entry_of selected_ship) rows2 = [])) as [->|H2].
    + by rewrite app_nil_r.
    + by apply join_app.
  - intros Hne. apply (length_join " " entries Hne).
  - done.
  - unfold top_keywords. by rewrite length_fmap, length_take.
  - unfold top_keywords. rewrite length_fmap, length_take. lia.
  - intros i. unfold top_keywords. rewrite list_lookup_fmap, lookup_take.
    by destruct (decide (i < 10)).
  - exists (take 10 phrases), (drop 10 phrases).
    split; [by rewrite take_drop|]. split; [done|].
    apply ranked_take_drop, rake_ranked.
Qed.

End Keywords.

(** ** The export read back *)

Lemma digit_value_digit (d : nat) : d < 10 → digit_value (digit d) = Some d.
Proof.
  intros Hd. unfold digit_value, digit. rewrite nat_ascii_embedding by lia.
  destruct (Nat.leb_spec 48 (48 + d)); [|lia].
  destruct (Nat.leb_spec (48 + d) 57); [|lia].
  cbn [andb]. f_equal. lia.
Qed.

Lemma take_number_last (w acc : nat) (s : string) :
  take_number (S w) acc s = '(v, s') ← take_number w acc s; take_number 1 v s'.
Proof.
  revert acc s. induction w as [|w IH]; intros acc s; [done|].
  destruct s as [|c s]; [done|].
  change (take_number (S (S w)) acc (String c s))
    with (d ← digit_value c; take_number (S w) (10 * acc + d) s).
  change (take_number (S w) acc (String c s))
    with (d ← digit_value c; take_number w (10 * acc + d) s).
  destruct (digit_value c) as [d|]; [|done]. cbn [mbind option_bind]. apply IH.
Qed.

Lemma take_number_add (w k acc : nat) (s : string) :
  take_number (w + k) acc s = '(v, s') ← take_number w acc s; take_number k v s'.
Proof.
  revert acc s. induction w as [|w IH]; intros acc s; [done|].
  cbn [Nat.add]. destruct s as [|c s]; [done|].
  change (take_number (S (w + k)) acc (String c s))
    with (d ← digit_value c; take_number (w + k) (10 * acc + d) s).
  change (take_number (S w) acc (String c s))
    with (d ← digit_value c; take_number w (10 * acc + d) s).
  destruct (digit_value c) as [d|]; [|done]. cbn [mbind option_bind]. apply IH.
Qed.

Lemma take_number_zero_padded (w n acc : nat) (rest : string) :
  n < 10 ^ w →
  take_number w acc (zero_padded w n +:+ rest) = Some (acc * 10 ^ w + n, rest).
Proof.
  revert n rest. induction w as [|w IH]; intros n rest Hn.
  - simpl in *. f_equal. f_equal. lia.
  - rewrite Nat.pow_succ_r' in Hn.
    cbn [zero_padded]. rewrite StrFacts.app_assoc, take_number_last.
    rewrite IH by (apply Nat.Div0.div_lt_upper_bound; lia).
    cbn [mbind option_bind take_number String.append].
    rewrite digit_value_digit by (apply Nat.mod_upper_bound; lia).
    cbn [mbind option_bind]. f_equal. f_equal.
    rewrite Nat.pow_succ_r'. pose proof (Nat.div_mod_eq n 10). lia.
Qed.

Lemma parse_date_iso (d : date) :
  valid_date d → parse_date (date_iso d) = Some (Some d).
Proof.
  intros (Hy & Hm & Hd). unfold parse_date, date_iso.
  pose proof (take_number_zero_padded 4 (year d) 0
                ("-" +:+ zero_padded 2 (month d) +:+ "-" +:+ zero_padded 2 (day d)) Hy)
    as Hyear.
  case_bool_decide as Hempty; [by rewrite Hempty in Hyear|].
  rewrite Hyear. cbn [mbind option_bind expect String.append Ascii.eqb Bool.eqb].
  rewrite take_number_zero_padded by (simpl; lia).
  cbn [mbind option_bind expect String.append Ascii.eqb Bool.eqb].
  rewrite <- (StrFacts.app_nil_r (zero_padded 2 (day d))).
  rewrite take_number_zero_padded by (simpl; lia).
  cbn [mbind option_bind]. rewrite bool_decide_true by done.
  destruct d as [y m dd]. cbn [year month day]. by do 2 f_equal.
Qed.

Lemma cells_read_back (float_repr : Q → string) (float_parse : string → option Q)
    (with_date : bool) (r : AuthorityRecord) :
  float_parse (float_repr (Score r)) = Some (Score r) →
  (with_date = true → ∀ d, Date r = Some d → valid_date d) →
  parse_record float_parse (csv_header with_date) (csv_cells float_repr with_date r)
  = Some (if with_date then r else clear_date r).
Proof.
  intros Hscore Hdate. destruct r as [a d p x]. cbn [Score Date] in *.
  destruct with_date.
  - unfold parse_record, csv_header, csv_cells. cbn [Authority Date Phrase Score].
    rewrite bool_decide_true by done.
    change (cell _ _ "Authority") with (Some a).
    change (cell _ _ "Phrase") with (Some p).
    change (cell _ _ "TF-IDF Score") with (Some (float_repr x)).
    change (cell _ _ "Date") with (Some (from_option date_iso EmptyString d)).
    cbn [mbind option_bind]. rewrite Hscore. cbn [mbind option_bind].
    destruct d as [d|].
    + cbn [from_option]. rewrite parse_date_iso by (by apply Hdate). done.
    + done.
  - unfold parse_record, csv_header, csv_cells. cbn [Authority Date Phrase Score].
    rewrite bool_decide_true by done.
    change (cell _ _ "Authority") with (Some a).
    change (cell _ _ "Phrase") with (Some p).
    change (cell _ _ "TF-IDF Score") with (Some (float_repr x)).
    change (cell _ _ "Date") with (@None string).
    cbn [mbind option_bind]. rewrite Hscore. done.
Qed.

Lemma records_read_back (float_repr : Q → string) (float_parse : string → option Q)
    (with_date : bool) (fdf : list AuthorityRecord) :
  Forall (λ r, float_parse (float_repr (Score r)) = Some (Score r)) fdf →
  (with_date = true → Forall (λ r, ∀ d, Date r = Some d → valid_date d) fdf) →
  mapM (parse_record float_parse (csv_header with_date))
    (csv_cells float_repr with_date <$> fdf)
  = Some (if with_date then fdf else clear_date <$> fdf).
Proof.
  intros Hscore Hdate. apply mapM_Some. apply Forall2_fmap_l.
  induction fdf as [|r fdf IH].
  - destruct with_date; constructor.
  - apply Forall_cons in Hscore as [Hr Hscore].
    assert (parse_record float_parse (csv_header with_date)
              (csv_cells float_repr with_date r)
            = Some (if with_date then r else clear_date r)) as Hrow.
    { apply cells_read_back; [done|]. intros -> d.
      specialize (Hdate eq_refl). apply Forall_cons in Hdate as [Hd _]. apply Hd. }
    assert (Forall2 (λ x y, parse_record float_parse (csv_header with_date)
                              (csv_cells float_repr with_date x) = Some y)
              fdf (if with_date then fdf else clear_date <$> fdf)) as Hrest.
    { apply IH; [done|]. intros ->. specialize (Hdate eq_refl).
      by apply Forall_cons in Hdate as [_ Hd]. }
    destruct with_date; [by constructor|].
    rewrite fmap_cons. by constructor.
Qed.

Lemma has_CR_app (a b : string) :
  Csv.has_CR (a +:+ b) = Csv.has_CR a || Csv.has_CR b.
Proof.
  induction a as [|c a IH]; [done|]. simpl. rewrite IH. by rewrite orb_assoc.
Qed.

Lemma has_CR_zero_padded (w n : nat) : Csv.has_CR (zero_padded w n) = false.
Proof.
  revert n. induction w as [|w IH]; intros n; [done|].
  cbn [zero_padded]. rewrite has_CR_app, IH. cbn [Csv.has_CR orb].
  rewrite orb_false_r. apply Ascii.eqb_neq. intros H.
  apply (f_equal nat_of_ascii) in H. unfold digit in H.
  pose proof (Nat.mod_upper_bound n 10).
  rewrite nat_ascii_embedding in H by lia.
  change (nat_of_ascii Csv.CR) with 13 in H. lia.
Qed.

Lemma has_CR_date_iso (d : date) : Csv.has_CR (date_iso d) = false.
Proof.
  unfold date_iso. by rewrite !has_CR_app, !has_CR_zero_padded.
Qed.

(** The exported text, read by the CSV reader. *)
Lemma read_to_csv (float_repr : Q → string) (with_date : bool)
    (fdf : list AuthorityRecord) :
  Forall (λ r, Csv.has_CR (Authority r) = false ∧ Csv.has_CR (Phrase r) = false
               ∧ Csv.has_CR (float_repr (Score r)) = false) fdf →
  Csv.read (to_csv float_repr with_date fdf)
  = csv_header with_date :: (csv_cells float_repr with_date <$> fdf).
Proof.
  intros Hcr. unfold to_csv. apply CsvFacts.read_write. constructor.
  - destruct with_date; (split; [done|]); repeat constructor.
  - apply Forall_fmap. eapply Forall_impl; [exact Hcr|].
    intros r (Ha & Hp & Hx). unfold csv_cells.
    destruct with_date; (split; [done|]); [|by repeat constructor].
    constructor; [done|]. constructor; [|by repeat constructor].
    destruct (Date r); [apply has_CR_date_iso|done].
Qed.

Section Roundtrip.
Variable float_repr : Q → string.

(** [float] on a text. *)
Variable float_parse : string → option Q.

(** C7, as the code has it.  Take a port-filtered subset in which no
    authority, no phrase and no written score holds a carriage return,
    every written score is read back by [float] as the score, and the
    dates, when the table has a [Date] column, are calendar dates with a
    year of four digits.  Reading back the CSV text of the subset gives the
    columns of the table and, under them, the rows of the subset with their
    values, in order (a table without [Date] column has no dates to give
    back).  The file name is "port_inspection_data_", the selected
    authority, an underscore, the eight digits of the year, the month and
    the day of the current date, and ".csv". *)
Theorem csv_export_round_trip (with_date : bool) (fdf : list AuthorityRecord)
    (selected_port : string) (today : date) :
  Forall (λ r, Csv.has_CR (Authority r) = false ∧ Csv.has_CR (Phrase r) = false) fdf →
  Forall (λ r, Csv.has_CR (float_repr (Score r)) = false
               ∧ float_parse (float_repr (Score r)) = Some (Score r)) fdf →
  (with_date = true → Forall (λ r, ∀ d, Date r = Some d → valid_date d) fdf) →
  valid_date today →
  (∃ header,
     read_table float_parse (to_csv float_repr with_date fdf)
     = Some (header, if with_date then fdf else clear_date <$> fdf)
     ∧ header ≡ₚ (if with_date
                  then ["Authority"; "Date"; "Phrase"; "TF-IDF Score"]
                  else ["Authority"; "Phrase"; "TF-IDF Score"]))
  ∧ ∃ stamp,
      file_name selected_port today
      = "port_inspection_data_" +:+ selected_port +:+ "_" +:+ stamp +:+ ".csv"
      ∧ take_number 8 0 stamp
        = Some (year today * 10 ^ 4 + month today * 10 ^ 2 + day today,
                EmptyString).
Proof.
  intros Htext Hscore Hdate (Hy & Hm & Hd). split.
  - exists (csv_header with_date). split; [|by destruct with_date].
    unfold read_table. rewrite read_to_csv.
    2:{ apply Forall_forall. intros r Hr.
        rewrite Forall_forall in Htext, Hscore.
        destruct (Htext r Hr), (Hscore r Hr). done. }
    rewrite records_read_back; [done| |done].
    eapply Forall_impl; [exact Hscore|]. by intros r [_ ?].
  - exists (strftime_Ymd today). split; [done|]. unfold strftime_Ymd.
    change (take_number 8) with (take_number (4 + (2 + 2))).
    rewrite take_number_add, take_number_zero_padded by done.
    cbn [mbind option_bind].
    rewrite take_number_add, take_number_zero_padded by (simpl; lia).
    cbn [mbind option_bind].
    rewrite <- (StrFacts.app_nil_r (zero_padded 2 (day today))).
    rewrite take_number_zero_padded by (simpl; lia).
    do 2 f_equal. change (10 ^ 4) with (10 ^ 2 * 10 ^ 2).
    generalize (10 ^ 2). intros p. nia.
Qed.
End Roundtrip.

(** ** Instances *)

Lemma word_rake_ranked (text : string) : ranked (word_rake text).
Proof.
  unfold ranked, word_rake. induction (String.words text) as [|w l IH]; simpl.
  - constructor.
  - constructor; [exact IH|]. apply Forall_fmap, Forall_forall.
    intros v _. simpl. apply Qle_refl.
Qed.

Lemma word_rake_empty : word_rake EmptyString = [].
Proof. reflexivity. Qed.


Lemma insert_ranked_ranked (x : Q * string) (l : list (Q * string)) :
  ranked l → ranked (insert_ranked x l).
Proof.
  unfold ranked. induction 1 as [|y l Hl IH Hy]; simpl.
  - repeat constructor.
  - destruct (Qle_bool y.1 x.1) eqn:E.
    + apply Qle_bool_iff in E. constructor; [by constructor|].
      constructor; [done|]. eapply Forall_impl; [exact Hy|].
      intros z Hz. simpl in *. lra.
    + assert (x.1 < y.1)%Q as Hlt.
      { apply Qnot_le_lt. intros H%Qle_bool_iff. congruence. }
      constructor; [done|].
      assert (∀ l', Forall (λ b, (b.1 <= y.1)%Q) l' →
                    Forall (λ b, (b.1 <= y.1)%Q) (insert_ranked x l')) as Hins.
      { clear -Hlt. induction 1 as [|z l' Hz Hl' IH']; simpl.
        - constructor; [lra|constructor].
        - destruct (Qle_bool z.1 x.1); repeat constructor; try done; lra. }
      by apply Hins.
Qed.

Lemma length_rake_ranked (text : string) : ranked (length_rake text).
Proof.
  unfold length_rake. induction (_ <$> String.words text) as [|x l IH]; simpl.
  - constructor.
  - by apply insert_ranked_ranked.
Qed.

Lemma top_keywords_of_vessel_witness :
  let ship_df :=
    [mkShip (Some "Ever Given") (Some "Fire extinguisher missing in engine room");
     mkShip (Some "Maersk Alabama") (Some "Oil leak");
     mkShip (Some "Ever Given") (Some "NIL");
     mkShip (Some "Ever Given") None;
     mkShip (Some "Ever Given")
       (Some "Life jacket expired and lifeboat davit corroded badly")] in
  let phrases := ranked_phrases length_rake ship_df "Ever Given" in
  combined_text (past_deficiencies (ship_rows ship_df "Ever Given"))
  = "Fire extinguisher missing in engine room Life jacket expired and lifeboat davit corroded badly"
  ∧ length phrases = 14
  ∧ top_keywords phrases
    = ["extinguisher"; "lifeboat"; "corroded"; "missing"; "expired"; "engine";
       "jacket"; "davit"; "badly"; "Fire"]
  ∧ ∃ kept rest,
      phrases = kept ++ rest ∧ top_keywords phrases = kept.*2
      ∧ ranked kept
      ∧ ∀ a b, a ∈ kept → b ∈ rest → (b.1 <= a.1)%Q.
Proof.
  split; [reflexivity|]. split; [reflexivity|]. split; [reflexivity|].
  apply (top_keywords_of_vessel length_rake length_rake_ranked
           [mkShip (Some "Ever Given") (Some "Fire extinguisher missing in engine room");
            mkShip (Some "Maersk Alabama") (Some "Oil leak");
            mkShip (Some "Ever Given") (Some "NIL");
            mkShip (Some "Ever Given") None;
            mkShip (Some "Ever Given")
              (Some "Life jacket expired and lifeboat davit corroded badly")]
           "Ever Given").
Defined.

Lemma all_nil_no_deficiencies_witness :
  let ship_df := mkShipTable true true
                   [mkShip (Some "Ever Given") (Some "nil");
                    mkShip (Some "Ever Given") (Some "Nil");
                    mkShip (Some "Ever Given") None;
                    mkShip (Some "Maersk Alabama") (Some "Oil leak")] in
  let w := mkWidgets (mkdate 2024 1 1, mkdate 2024 3 7) "Tokyo" "Ever Given" 10
             EmptyString in
  top_keywords (ranked_phrases word_rake (ship_records ship_df) (selected_ship w)) = [].
Proof.
  apply (all_nil_no_deficiencies word_rake (λ _, None) (λ _, "0.00") (λ _, "0.0")
           word_rake_empty
           (mkAuthorityTable false [mkAuthority "Tokyo" None "Fire safety" (3 # 2)])
           (mkShipTable true true
              [mkShip (Some "Ever Given") (Some "nil");
               mkShip (Some "Ever Given") (Some "Nil");
               mkShip (Some "Ever Given") None;
               mkShip (Some "Maersk Alabama") (Some "Oil leak")])
           (mkdate 2024 3 7)
           (mkWidgets (mkdate 2024 1 1, mkdate 2024 3 7) "Tokyo" "Ever Given" 10
              EmptyString)).
  - reflexivity.
  - reflexivity.
  - intros r t Hr. simpl in Hr.
    repeat (apply elem_of_cons in Hr as [->|Hr]); simpl;
      try (apply elem_of_nil in Hr; contradiction);
      intros; simplify_eq; reflexivity.
Defined.

Lemma load_failure_halts_witness :
  let env := mkEnv (ReadError "No such file") (Parsed (mkShipTable true true []))
               (mkdate 2024 3 7) in
  let w := mkWidgets (mkdate 2024 1 1, mkdate 2024 3 7) "Tokyo" "Ever Given" 10
             EmptyString in
  main word_rake (λ _, None) (λ _, "0.00") (λ _, "0.0") env w
  = ([st_title "🚢 Port Authority Inspection Analytics Dashboard";
      read_excel authority_path;
      st_error "Error loading authority data: No such file";
      read_excel ship_path], Returned).
Proof.
  apply (load_failure_halts word_rake (λ _, None) (λ _, "0.00") (λ _, "0.0")
           (mkEnv (ReadError "No such file") (Parsed (mkShipTable true true []))
              (mkdate 2024 3 7))
           (mkWidgets (mkdate 2024 1 1, mkdate 2024 3 7) "Tokyo" "Ever Given" 10
              EmptyString)).
  left. reflexivity.
Defined.

Lemma csv_export_round_trip_witness :
  let float_repr := λ q : Q, if Qeq_bool q (3 # 2) then "1.5" else "0.5" in
  let float_parse := λ s : string,
    if bool_decide (s = "1.5") then Some (3 # 2)
    else if bool_decide (s = "0.5") then Some (1 # 2) else None in
  let fdf := [mkAuthority "Tokyo" (Some (mkdate 2024 3 7)) "Fire, smoke and heat" (3 # 2);
              mkAuthority "Tokyo" None ("Oil record" +:+ String Csv.LF "book") (1 # 2)] in
  (∃ header,
     read_table float_parse (to_csv float_repr true fdf) = Some (header, fdf)
     ∧ header ≡ₚ ["Authority"; "Date"; "Phrase"; "TF-IDF Score"])
  ∧ file_name "Tokyo" (mkdate 2024 3 7) = "port_inspection_data_Tokyo_20240307.csv".
Proof.
  split; [|reflexivity].
  apply (csv_export_round_trip
           (λ q : Q, if Qeq_bool q (3 # 2) then "1.5" else "0.5")
           (λ s : string,
              if bool_decide (s = "1.5") then Some (3 # 2)
              else if bool_decide (s = "0.5") then Some (1 # 2) else None)
           true
           [mkAuthority "Tokyo" (Some (mkdate 2024 3 7)) "Fire, smoke and heat" (3 # 2);
            mkAuthority "Tokyo" None ("Oil record" +:+ String Csv.LF "book") (1 # 2)]
           "Tokyo" (mkdate 2024 3 7)).
  - repeat constructor.
  - repeat constructor.
  - intros _. apply Forall_cons. split; [|by apply Forall_singleton].
    intros d Hd. injection Hd as <-. unfold valid_date. simpl. lia.
  - unfold valid_date. simpl. lia.
Defined.

(** A phrase with a carriage return is written without quotes, and the
    reader ends the record there: the export of one row is read back as
    two records, neither of which is a row of the table. *)
Lemma csv_carriage_return_counterexample :
  let float_repr := λ _ : Q, "0.5" in
  let float_parse := λ s : string,
    if bool_decide (s = "0.5") then Some (1 # 2) else None in
  let fdf := [mkAuthority "Tokyo" None ("fire" +:+ String Csv.CR "safety") (1 # 2)] in
  to_csv float_repr false fdf
  = "Authority,Phrase,TF-IDF Score" +:+ String Csv.LF
      ("Tokyo,fire" +:+ String Csv.CR ("safety,0.5" +:+ String Csv.LF EmptyString))
  ∧ Csv.read (to_csv float_repr false fdf)
    = [["Authority"; "Phrase"; "TF-IDF Score"]; ["Tokyo"; "fire"]; ["safety"; "0.5"]]
  ∧ read_table float_parse (to_csv float_repr false fdf) = None
  ∧ ¬ (∀ (float_repr : Q → string) (float_parse : string → option Q)
         (with_date : bool) (fdf : list AuthorityRecord),
         Forall (λ r, float_parse (float_repr (Score r)) = Some (Score r)) fdf →
         (with_date = true →
          Forall (λ r, ∀ d, Date r = Some d → valid_date d) fdf) →
         ∃ header,
           read_table float_parse (to_csv float_repr with_date fdf)
           = Some (header, if with_date then fdf else clear_date <$> fdf)).
Proof.
  split; [reflexivity|]. split; [reflexivity|]. split; [reflexivity|].
  intros H.
  destruct (H (λ _ : Q, "0.5")
              (λ s : string, if bool_decide (s = "0.5") then Some (1 # 2) else None)
              false
              [mkAuthority "Tokyo" None ("fire" +:+ String Csv.CR "safety") (1 # 2)])
    as (header & Hread).
  - repeat constructor.
  - discriminate.
  - discriminate Hread.
Qed.

Lemma search_plain_term_witness :
  ∃ rows,
    filtered_data (λ _, None) "FIRE"
      [mkAuthority "Tokyo" None "Fire safety" (3 # 2);
       mkAuthority "Tokyo" None "Oil record book" (1 # 2)] = Some rows
    ∧ rows = [mkAuthority "Tokyo" None "Fire safety" (3 # 2)].
Proof.
  destruct (search_plain_term (λ _, None) "FIRE"
              [mkAuthority "Tokyo" None "Fire safety" (3 # 2);
               mkAuthority "Tokyo" None "Oil record book" (1 # 2)]
              eq_refl eq_refl)
    as (rows & H1 & H2 & _).
  - repeat constructor.
  - exists rows. split; [exact H1|]. rewrite H2. reflexivity.
Defined.

(** The search term "." is a pattern that matches any character: the row
    with the phrase "abc" is displayed, and "abc" does not contain ".". *)
Lemma search_dot_counterexample :
  let fdf := [mkAuthority "Tokyo" None "abc" (1 # 2)] in
  (∀ rest, filtered_data rest "." fdf = Some fdf)
  ∧ ¬ Str.is_substring_nocase "." "abc"
  ∧ ¬ (∀ rest s fdf rows,
         filtered_data rest s fdf = Some rows →
         ∀ r, r ∈ rows ↔ r ∈ fdf ∧ Str.is_substring_nocase s (Phrase r)).
Proof.
  assert (¬ Str.is_substring_nocase "." "abc") as Hno.
  { intros H. apply StrFacts.is_substring_nocase_lower in H.
    apply StrFacts.contains_spec in H. discriminate. }
  split; [done|]. split; [done|].
  intros H.
  apply Hno, (H (λ _, None) "." [mkAuthority "Tokyo" None "abc" (1 # 2)] _ eq_refl
                (mkAuthority "Tokyo" None "abc" (1 # 2))).
  apply list_elem_of_here.
Qed.

(** * Further properties of the pass *)

#[local] Set Warnings "-clear-no-such-hyp".

(** ** The two selectors *)

Lemma sum_list_indicator (x : string) (ks : list string) :
  NoDup ks →
  sum_list ((λ k, if decide (x = k) then 1 else 0) <$> ks)
  = if decide (x ∈ ks) then 1 else 0.
Proof.
  induction 1 as [|k ks Hk _ IH]; [done|].
  rewrite fmap_cons. cbn [sum_list sum_list_with]. rewrite IH. unfold id.
  destruct (decide (x = k)) as [->|Hne].
  - rewrite (decide_False (P := k ∈ ks)) by done.
    rewrite (decide_True (P := k ∈ k :: ks)) by left. done.
  - destruct (decide (x ∈ ks)) as [Hin|Hin].
    + rewrite (decide_True (P := x ∈ k :: ks)) by (by right). done.
    + rewrite (decide_False (P := x ∈ k :: ks)); [done|].
      rewrite elem_of_cons. tauto.
Qed.

Lemma sum_list_plus {A} (f g : A → nat) (l : list A) :
  sum_list ((λ x, f x + g x) <$> l) = sum_list (f <$> l) + sum_list (g <$> l).
Proof.
  induction l as [|x l IH]; [done|].
  rewrite !fmap_cons. cbn [sum_list sum_list_with]. rewrite IH.
  unfold id. lia.
Qed.

(** The rows of a table, counted port by port over any list of distinct
    ports that covers the table. *)
Lemma filtered_df_lengths (df : list AuthorityRecord) (ks : list string) :
  NoDup ks → (∀ r, r ∈ df → Authority r ∈ ks) →
  sum_list ((λ k, length (filtered_df df k)) <$> ks) = length df.
Proof.
  intros Hks. induction df as [|r df IH]; intros Hcover.
  - unfold filtered_df. simpl. rewrite sum_list_fmap_const. lia.
  - rewrite (list_fmap_ext _
               (λ k, (if decide (Authority r = k) then 1 else 0)
                     + length (filtered_df df k)) ks).
    2:{ intros i k _. unfold filtered_df. rewrite filter_cons.
        by destruct (decide (Authority r = k)). }
    rewrite sum_list_plus, sum_list_indicator by done.
    rewrite decide_True by (apply Hcover; left).
    rewrite IH; [done|]. intros r' Hr'. apply Hcover. by right.
Qed.

(** X1.  The port selector offers the authorities of the table, each
    once, in increasing order; and the tables obtained by selecting each
    offered port in turn split the authority table: every row is in the
    table of its own port and of no other, and their sizes add up to the
    size of the table. *)
Theorem ports_partition (df : list AuthorityRecord) :
  StronglySorted String.le (ports df)
  ∧ NoDup (ports df)
  ∧ (∀ A, A ∈ ports df ↔ ∃ r, r ∈ df ∧ Authority r = A)
  ∧ (∀ r, r ∈ df → Authority r ∈ ports df ∧ r ∈ filtered_df df (Authority r))
  ∧ (∀ r A B, r ∈ filtered_df df A → r ∈ filtered_df df B → A = B)
  ∧ sum_list ((λ A, length (filtered_df df A)) <$> ports df) = length df.
Proof.
  split; [|split; [|split; [|split; [|split]]]].
  - apply StronglySorted_merge_sort; apply _.
  - apply ports_NoDup.
  - apply elem_of_ports.
  - intros r Hr. split.
    + apply elem_of_ports. eauto.
    + by apply list_elem_of_filter.
  - intros r A B [HA _]%list_elem_of_filter [HB _]%list_elem_of_filter.
    congruence.
  - apply filtered_df_lengths; [apply ports_NoDup|].
    intros r Hr. apply elem_of_ports. eauto.
Qed.

Lemma elem_of_ships (ship_df : list ShipRecord) (v : string) :
  v ∈ ships ship_df ↔ ∃ r, r ∈ ship_df ∧ Vessel_Name r = Some v.
Proof.
  unfold ships.
  by rewrite merge_sort_Permutation, elem_of_remove_dups, list_elem_of_omap.
Qed.

(** X2.  The vessel selector offers the vessel names present in the ship
    table, each once, in increasing order.  A row without a vessel name is
    offered under no name and belongs to the rows of no vessel; the rows of
    an offered vessel are never empty, and the rows of a name that is not
    offered are. *)
Theorem ships_selector (ship_df : list ShipRecord) :
  StronglySorted String.le (ships ship_df)
  ∧ NoDup (ships ship_df)
  ∧ (∀ v, v ∈ ships ship_df ↔ ∃ r, r ∈ ship_df ∧ Vessel_Name r = Some v)
  ∧ (∀ r v, Vessel_Name r = None → r ∉ ship_rows ship_df v)
  ∧ (∀ v, v ∈ ships ship_df ↔ ship_rows ship_df v ≠ []).
Proof.
  split; [|split; [|split; [|split]]].
  - apply StronglySorted_merge_sort; apply _.
  - unfold ships. rewrite merge_sort_Permutation. apply NoDup_remove_dups.
  - apply elem_of_ships.
  - intros r v Hnone [Hv _]%list_elem_of_filter. congruence.
  - intros v. rewrite elem_of_ships. unfold ship_rows. split.
    + intros (r & Hr & Hv) Hnil.
      by apply (filter_nil_not_elem_of (λ r, Vessel_Name r = Some v) ship_df r Hnil Hv).
    + intros Hne. destruct (filter _ ship_df) as [|r l] eqn:E; [done|].
      assert (r ∈ filter (λ r, Vessel_Name r = Some v) ship_df) as Hr
        by (rewrite E; left).
      apply list_elem_of_filter in Hr as [Hv Hr]. eauto.
Qed.

(** ** The date picker *)

Lemma date_leb_spec (a b : date) :
  date_leb a b = true
  ↔ year a < year b
    ∨ (year a = year b ∧ (month a < month b ∨ (month a = month b ∧ day a ≤ day b))).
Proof.
  unfold date_leb.
  rewrite !orb_true_iff, !andb_true_iff, !orb_true_iff, !andb_true_iff,
    !Nat.ltb_lt, !Nat.eqb_eq, Nat.leb_le. tauto.
Qed.

Lemma date_leb_refl (a : date) : date_leb a a = true.
Proof. apply date_leb_spec. lia. Qed.

Lemma date_leb_trans (a b c : date) :
  date_leb a b = true → date_leb b c = true → date_leb a c = true.
Proof. rewrite !date_leb_spec. lia. Qed.

Lemma date_leb_total (a b : date) : date_leb a b = true ∨ date_leb b a = true.
Proof. rewrite !date_leb_spec. lia. Qed.

Lemma min_date_spec (df : list AuthorityRecord) :
  match min_date df with
  | None => dates df = []
  | Some lo => lo ∈ dates df ∧ ∀ d, d ∈ dates df → date_leb lo d = true
  end.
Proof.
  unfold min_date, dates. induction (omap Date df) as [|d l IH]; simpl; [done|].
  destruct (foldr _ None l) as [e|].
  - destruct IH as [He Hle]. destruct (date_leb d e) eqn:E.
    + split; [left|]. intros x [->|Hx]%elem_of_cons; [apply date_leb_refl|].
      eapply date_leb_trans; [exact E|]. by apply Hle.
    + split; [by right|]. intros x [->|Hx]%elem_of_cons; [|by apply Hle].
      destruct (date_leb_total d e); congruence.
  - subst l. split; [left|].
    intros x [->|Hx]%elem_of_cons; [apply date_leb_refl|].
    by apply elem_of_nil in Hx.
Qed.

Lemma max_date_spec (df : list AuthorityRecord) :
  match max_date df with
  | None => dates df = []
  | Some hi => hi ∈ dates df ∧ ∀ d, d ∈ dates df → date_leb d hi = true
  end.
Proof.
  unfold max_date, dates. induction (omap Date df) as [|d l IH]; simpl; [done|].
  destruct (foldr _ None l) as [e|].
  - destruct IH as [He Hle]. destruct (date_leb d e) eqn:E.
    + split; [by right|]. intros x [->|Hx]%elem_of_cons; [done|by apply Hle].
    + split; [left|]. intros x [->|Hx]%elem_of_cons; [apply date_leb_refl|].
      eapply date_leb_trans; [by apply Hle|].
      destruct (date_leb_total d e); congruence.
  - subst l. split; [left|].
    intros x [->|Hx]%elem_of_cons; [apply date_leb_refl|].
    by apply elem_of_nil in Hx.
Qed.

Lemma ship_check_no_date_input rake ship_df fdf selected_ship :
  date_inputs (ship_check rake ship_df fdf selected_ship) = [].
Proof.
  unfold ship_check, date_inputs.
  destruct (has_Vessel_Name ship_df && has_Nature_of_deficiency ship_df); [|done].
  destruct (top_keywords _), (matched_table _ _); by case_bool_decide.
Qed.

(** ** The ship check *)

Lemma matched_keywords_empty (table : list MatchRow) :
  matched_keywords table = ∅ ↔ table = [].
Proof.
  split; [|by intros ->]. destruct table as [|m table]; [done|].
  unfold matched_keywords. rewrite fmap_cons. simpl. intros H.
  assert (Matched_Keyword m ∈ (∅ : gset string)) as []%elem_of_empty.
  rewrite <- H. apply elem_of_union_l, elem_of_singleton. done.
Qed.

(** X4.  With both columns of the ship table present, the ship check
    renders the vessel selector and the heading of the keywords, then the
    keywords joined by commas, or the information message when there is
    none; after that, either the success message, when no keyword matches a
    phrase of the port, or the warning banner with the set of matched
    keywords followed by the table of matches.  The banner and the table
    come together and never with the success message. *)
Theorem ship_check_outcome (rake : string → list (Q * string))
    (rows : list ShipRecord) (fdf : list AuthorityRecord) (selected_ship : string) :
  let kws := top_keywords (ranked_phrases rake rows selected_ship) in
  let table := matched_table kws (authority_phrases fdf) in
  ship_check rake (mkShipTable true true rows) fdf selected_ship
  = [sidebar_selectbox "Select a Ship" (ships rows);
     sidebar_markdown "### 🚨 Past Issues (Extracted Keywords)";
     if decide (kws = []) then sidebar_info "No relevant deficiencies found."
     else sidebar_write (Str.join ", " kws)]
    ++ (if decide (table = []) then
          [sidebar_success "No major overlaps found with this port's inspection priorities."]
        else
          [sidebar_markdown "### ⚠️ Attention Required";
           sidebar_warning (matched_keywords table);
           sidebar_markdown "#### 🔍 Matched Deficiencies vs Port Focus";
           sidebar_dataframe table]).
Proof.
  intros kws table. unfold ship_check. cbn [has_Vessel_Name
    has_Nature_of_deficiency ship_records andb]. fold kws. fold table.
  pose proof (matched_keywords_empty table) as Hempty.
  case_bool_decide as Hset.
  - apply Hempty in Hset. rewrite Hset. by destruct (decide (kws = [])), kws.
  - assert (table ≠ []) as Hne by (intros Hnil; by apply Hset, Hempty).
    rewrite (decide_False (P := table = [])) by done.
    destruct table as [|m t]; [done|].
    by destruct (decide (kws = [])), kws.
Qed.

(** X5.  When the ship table lacks the vessel column or the deficiency
    column, the ship check is skipped without an error: the pass is the
    same whatever the keyword extractor and whatever vessel is selected,
    and its sidebar holds no vessel selector, keyword, banner or match. *)
Theorem ship_check_skipped (rake rake' : string → list (Q * string))
    (re_compile_rest : string → option (string → bool))
    (format_2f float_repr : Q → string)
    (df : AuthorityTable) (ship_df : ShipTable) (today : date)
    (w : Widgets) (ship : string) :
  has_Vessel_Name ship_df && has_Nature_of_deficiency ship_df = false →
  ship_check rake ship_df (filtered_df (records df) (selected_port w))
    (selected_ship w) = []
  ∧ main rake re_compile_rest format_2f float_repr
      (mkEnv (Parsed df) (Parsed ship_df) today) w
    = main rake' re_compile_rest format_2f float_repr
        (mkEnv (Parsed df) (Parsed ship_df) today) (with_selected_ship ship w).
Proof.
  intros Hcols. unfold main, render, ship_check.
  cbn [final_xlsx ship_data_xlsx load_authority_data load_ship_data now
       selected_port selected_ship search_term top_n date_range
       with_selected_ship].
  rewrite Hcols. done.
Qed.

Lemma ship_check_skipped_witness :
  let ship_df := mkShipTable true false [mkShip (Some "Ever Given") None] in
  ship_check word_rake ship_df [mkAuthority "Tokyo" None "Fire safety" (3 # 2)]
    "Ever Given" = [].
Proof.
  apply (ship_check_skipped word_rake word_rake (λ _, None) (λ _, "0.00")
           (λ _, "0.0")
           (mkAuthorityTable false [mkAuthority "Tokyo" None "Fire safety" (3 # 2)])
           (mkShipTable true false [mkShip (Some "Ever Given") None])
           (mkdate 2024 3 7)
           (mkWidgets (mkdate 2024 1 1, mkdate 2024 3 7) "Tokyo" "Ever Given" 10
              EmptyString)
           "Maersk Alabama").
  reflexivity.
Defined.

Lemma length_matched_table (kws phrases : list string) :
  length (matched_table kws phrases) ≤ length kws * length phrases.
Proof.
  unfold matched_table. induction kws as [|kw kws IH]; [done|].
  change (length ((phrases ≫= λ phrase,
            if Str.contains (Str.lower kw) phrase then [mkMatch kw phrase] else [])
          ++ (kws ≫= λ kw, phrases ≫= λ phrase,
                if Str.contains (Str.lower kw) phrase then [mkMatch kw phrase] else []))
          ≤ length (kw :: kws) * length phrases).
  rewrite List.length_app. simpl.
  assert (length (phrases ≫= λ phrase,
            if Str.contains (Str.lower kw) phrase then [mkMatch kw phrase] else [])
          ≤ length phrases) as Hinner.
  { clear. induction phrases as [|p ps IH]; [done|].
    change (length ((if Str.contains (Str.lower kw) p then [mkMatch kw p] else [])
                    ++ (ps ≫= λ phrase,
                          if Str.contains (Str.lower kw) phrase
                          then [mkMatch kw phrase] else []))
            ≤ S (length ps)).
    rewrite List.length_app. destruct (Str.contains _ _); simpl; lia. }
  lia.
Qed.

(** X6.  Every match of the ship check pairs a retained keyword with the
    lower-cased phrase of a row of the selected port, never of another
    port, and there are at most as many matches as keywords times rows of
    the port, hence at most ten per row. *)
Theorem matches_within_port (rake : string → list (Q * string))
    (ship_df : list ShipRecord) (df : list AuthorityRecord)
    (port ship : string) :
  let fdf := filtered_df df port in
  let kws := top_keywords (ranked_phrases rake ship_df ship) in
  let table := matched_table kws (authority_phrases fdf) in
  (∀ m, m ∈ table →
        Matched_Keyword m ∈ kws
        ∧ ∃ r, r ∈ df ∧ Authority r = port
               ∧ Port_Phrase m = Str.lower (Phrase r))
  ∧ length table ≤ length kws * length fdf
  ∧ length table ≤ 10 * length fdf.
Proof.
  intros fdf kws table. split; [|split].
  - intros m (Hkw & Hp & _)%elem_of_matched_table. split; [done|].
    apply list_elem_of_fmap in Hp as (r & -> & Hr).
    apply list_elem_of_filter in Hr as [Hport Hr]. eauto.
  - unfold table. etrans; [apply length_matched_table|].
    unfold authority_phrases. by rewrite length_fmap.
  - unfold table. etrans; [apply length_matched_table|].
    unfold authority_phrases. rewrite length_fmap.
    apply Nat.mul_le_mono_r. unfold kws, top_keywords.
    rewrite length_fmap, length_take. lia.
Qed.

(** ** The search box and the end of the pass *)

Lemma contains_empty (s : string) : Str.contains EmptyString s = true.
Proof. by destruct s. Qed.

(** The table shown for a term without special characters. *)
Lemma filtered_data_plain (rest : string → option (string → bool))
    (s : string) (fdf : list AuthorityRecord) :
  Re.plain s = true →
  filtered_data rest s fdf
  = Some (filter (λ r, Str.contains (Str.lower s) (Str.lower (Phrase r)) = true) fdf).
Proof.
  intros Hplain. unfold filtered_data. case_bool_decide as Hs.
  - subst s. f_equal. symmetry. apply filter_all. intros r _.
    apply contains_empty.
  - unfold re_compile. destruct (parse_plain s Hplain) as (atoms & -> & Hmatch).
    simpl. f_equal. apply list_filter_iff. intros r.
    by rewrite (search_contains atoms (Str.lower s) Hmatch).
Qed.

Lemma filtered_data_None (rest : string → option (string → bool))
    (s : string) (fdf : list AuthorityRecord) :
  filtered_data rest s fdf = None ↔ s ≠ EmptyString ∧ re_compile rest s = None.
Proof.
  unfold filtered_data. case_bool_decide as Hs.
  - split; [done|]. intros [Hne _]. done.
  - destruct (re_compile rest s); simpl.
    + split; [done|]. intros [_ H]. done.
    + done.
Qed.

(** X7.  Whatever the search term, regular expression or not, a table
    shown under the search box is made of rows of the port-filtered
    subset, in their order and each at most as often as there: searching
    never adds, repeats or reorders rows. *)
Theorem search_never_adds_rows (rest : string → option (string → bool))
    (s : string) (fdf rows : list AuthorityRecord) :
  filtered_data rest s fdf = Some rows →
  rows `sublist_of` fdf
  ∧ (∀ r, r ∈ rows → r ∈ fdf)
  ∧ length rows ≤ length fdf.
Proof.
  intros H.
  assert (rows `sublist_of` fdf) as Hsub.
  { unfold filtered_data in H. case_bool_decide; [by simplify_eq|].
    destruct (re_compile rest s) as [found|]; [|done]. simpl in H.
    simplify_eq. apply sublist_filter. }
  split; [done|]. split.
  - intros r Hr. by eapply elem_of_sublist.
  - by apply sublist_length.
Qed.

Lemma search_never_adds_rows_witness :
  ∃ rows,
    filtered_data (λ _, None) "oil"
      [mkAuthority "Tokyo" None "Fire safety" (3 # 2);
       mkAuthority "Tokyo" None "Oil record book" (1 # 2)] = Some rows
    ∧ length rows ≤ 2.
Proof.
  exists [mkAuthority "Tokyo" None "Oil record book" (1 # 2)].
  split; [reflexivity|].
  apply (search_never_adds_rows (λ _, None) "oil"
           [mkAuthority "Tokyo" None "Fire safety" (3 # 2);
            mkAuthority "Tokyo" None "Oil record book" (1 # 2)]
           [mkAuthority "Tokyo" None "Oil record book" (1 # 2)]).
  reflexivity.
Defined.

(** X8.  Two search terms without special characters that differ only in
    letter case show the same table. *)
Theorem search_ignores_case_of_term (rest : string → option (string → bool))
    (s s' : string) (fdf : list AuthorityRecord) :
  Re.plain s = true → Re.plain s' = true → Str.lower s = Str.lower s' →
  filtered_data rest s fdf = filtered_data rest s' fdf.
Proof.
  intros Hs Hs' Heq. rewrite !filtered_data_plain by done. by rewrite Heq.
Qed.

Lemma search_ignores_case_of_term_witness :
  let fdf := [mkAuthority "Tokyo" None "Fire safety" (3 # 2);
              mkAuthority "Tokyo" None "Oil record book" (1 # 2)] in
  filtered_data (λ _, None) "FiRe" fdf = filtered_data (λ _, None) "fire" fdf.
Proof.
  apply (search_ignores_case_of_term (λ _, None) "FiRe" "fire"); reflexivity.
Defined.

(** ** Runs of the script

    [main] up to the first call that raises: the date picker without
    bounds, the bar chart of a table without rows, the word cloud that the
    library refuses, the table under a rejected search term. *)

Lemma before_refusal_app (r : event → bool) (l1 l2 : list event) :
  before_refusal r (l1 ++ l2)
  = if existsb r l1 then before_refusal r l1 else l1 ++ before_refusal r l2.
Proof.
  induction l1 as [|e l1 IH]; [done|]. simpl.
  destruct (r e); [done|]. simpl. rewrite IH. by destruct (existsb r l1).
Qed.

Lemma before_refusal_none (r : event → bool) (l : list event) :
  existsb r l = false → before_refusal r l = l.
Proof.
  induction l as [|e l IH]; [done|]. simpl.
  destruct (r e); [done|]. simpl. intros H. by rewrite IH.
Qed.

Section Runs.
Variable rake : string → list (Q * string).
Variable re_compile_rest : string → option (string → bool).
Variable format_2f float_repr : Q → string.
Variable word_cloud_accepts : gmap string Q → bool.

Lemma ship_check_not_refused no_rows ship_df fdf selected_ship :
  existsb (refused word_cloud_accepts no_rows)
    (ship_check rake ship_df fdf selected_ship) = false.
Proof.
  unfold ship_check.
  destruct (has_Vessel_Name ship_df && has_Nature_of_deficiency ship_df); [|done].
  destruct (top_keywords _), (matched_table _ _); by case_bool_decide.
Qed.

(** A run with both tables loaded, stage by stage. *)
Lemma run_loaded (df : AuthorityTable) (ship_df : ShipTable) (today : date)
    (w : Widgets) :
  let env := mkEnv (Parsed df) (Parsed ship_df) today in
  let fdf := filtered_df (records df) (selected_port w) in
  let start := [st_title "🚢 Port Authority Inspection Analytics Dashboard";
                read_excel authority_path; read_excel ship_path;
                sidebar_header "Filters"] in
  let sidebar :=
    (if has_Date df then
       [sidebar_date_input "Select Date Range"
          (min_date (records df)) (max_date (records df))]
     else [])
    ++ [sidebar_selectbox "Select a Port Authority" (ports (records df));
        sidebar_header "Ship Check"]
    ++ ship_check rake ship_df fdf (selected_ship w)
    ++ [st_subheader "📊 Top Inspection Focus Areas";
        st_slider "Number of top phrases to show" 5 20 10] in
  let chart :=
    [st_plotly_chart (top_phrases (top_n w) fdf)
       ("Top " +:+ pretty (top_n w) +:+ " Phrases by TF-IDF Score");
     st_subheader "☁️ Inspection Word Cloud"] in
  run rake re_compile_rest format_2f float_repr word_cloud_accepts env w
  = if decide (has_Date df = true ∧ dates (records df) = []) then (start, Raised)
    else if decide (records df = []) then (start ++ sidebar, Raised)
    else if word_cloud_accepts (phrase_dict fdf) then
      main rake re_compile_rest format_2f float_repr env w
    else (start ++ sidebar ++ chart, Raised).
Proof.
  intros env fdf start sidebar chart.
  set (fd := filtered_data re_compile_rest (search_term w) fdf).
  set (closing :=
         [st_subheader "📈 Key Metrics";
          st_metric "Average TF-IDF Score"
            (format_float format_2f (mean (Score <$> fdf)))
            (Some (format_float format_2f
                     (minus_opt (mean (Score <$> fdf))
                        (mean (Score <$> records df)))));
          st_metric "Number of Unique Phrases" (pretty (length fdf)) None;
          st_metric "Max TF-IDF Score"
            (format_float format_2f (maximum (Score <$> fdf))) None;
          st_subheader "🔍 Detailed Data View";
          st_text_input "Search phrases..."]
         ++ match fd with
            | Some rows =>
                [st_dataframe rows;
                 st_download_button "Download Data as CSV"
                   (to_csv float_repr (has_Date df) fdf)
                   (file_name (selected_port w) today) "text/csv";
                 st_markdown "---";
                 st_markdown "### About This Dashboard";
                 st_markdown about_text]
            | None => []
            end).
  assert (main rake re_compile_rest format_2f float_repr env w
          = (start ++ sidebar ++ chart ++ [st_pyplot (phrase_dict fdf)] ++ closing,
             match fd with Some _ => Returned | None => Raised end)) as Hmain.
  { unfold main, env, render, closing, sidebar, chart, start.
    cbn [final_xlsx ship_data_xlsx load_authority_data load_ship_data now].
    cbv zeta. fold fdf. fold fd. destruct fd; cbn [fst snd];
      by rewrite <- !(assoc_L (++)). }
  unfold run. rewrite Hmain. cbn [final_xlsx env].
  set (r := refused word_cloud_accepts (bool_decide (records df = []))).
  assert (existsb r closing = false) as Hclosing.
  { unfold closing. rewrite existsb_app. by destruct fd. }
  assert (existsb r start = false) as Hstart by done.
  assert (existsb r sidebar
          = bool_decide (has_Date df = true ∧ dates (records df) = [])) as Hsidebar.
  { unfold sidebar. rewrite !existsb_app. unfold r at 3.
    rewrite ship_check_not_refused. cbn [existsb orb].
    rewrite !orb_false_r.
    pose proof (min_date_spec (records df)) as Hmin.
    pose proof (max_date_spec (records df)) as Hmax.
    destruct (has_Date df).
    - cbn [existsb r refused orb]. 
      destruct (min_date (records df)) as [lo|], (max_date (records df)) as [hi|].
      + rewrite bool_decide_false; [done|]. intros [_ Hnil].
        rewrite Hnil in Hmin. by destruct Hmin as [?%elem_of_nil _].
      + by rewrite bool_decide_true.
      + by rewrite bool_decide_true.
      + by rewrite bool_decide_true.
    - rewrite bool_decide_false; [done|]. by intros [? _]. }
  assert (has_Date df = true ∧ dates (records df) = [] →
          before_refusal r sidebar = []) as Hdates.
  { intros [Hcol Hnil]. unfold sidebar. rewrite Hcol.
    pose proof (min_date_spec (records df)) as Hmin.
    destruct (min_date (records df)) as [lo|]; [|done].
    rewrite Hnil in Hmin. by destruct Hmin as [?%elem_of_nil _]. }
  rewrite !before_refusal_app, !existsb_app, Hstart, Hsidebar, Hclosing.
  rewrite (before_refusal_none r closing Hclosing).
  subst r. unfold chart. cbn [orb existsb before_refusal refused].
  rewrite ?orb_false_r.
  destruct (decide (has_Date df = true ∧ dates (records df) = [])) as [Hd|Hd].
  { rewrite bool_decide_true by done. rewrite (Hdates Hd). cbn [orb].
    by rewrite app_nil_r. }
  rewrite (bool_decide_false _ Hd). cbn [orb].
  destruct (decide (records df = [])) as [Hrows|Hrows].
  { rewrite (bool_decide_true _ Hrows). cbn [orb]. by rewrite app_nil_r. }
  rewrite (bool_decide_false _ Hrows). cbn [orb].
  destruct (word_cloud_accepts (phrase_dict fdf)); cbn [negb orb].
  - done.
  - done.
Qed.


(** What [main] shows and offers with both tables loaded. *)
Lemma main_outputs (df : AuthorityTable) (ship_df : ShipTable) (today : date)
    (w : Widgets) :
  let fdf := filtered_df (records df) (selected_port w) in
  let pass := main rake re_compile_rest format_2f float_repr
                (mkEnv (Parsed df) (Parsed ship_df) today) w in
  let csv := (to_csv float_repr (has_Date df) fdf,
              file_name (selected_port w) today) in
  exported pass.1
  = match filtered_data re_compile_rest (search_term w) fdf with
    | Some _ => [csv] | None => [] end
  ∧ displayed pass.1
    = match filtered_data re_compile_rest (search_term w) fdf with
      | Some rows => [rows] | None => [] end
  ∧ pass.2 = match filtered_data re_compile_rest (search_term w) fdf with
             | Some _ => Returned | None => Raised end.
Proof.
  intros fdf pass csv. unfold pass, main.
  cbn [final_xlsx ship_data_xlsx load_authority_data load_ship_data now].
  pose proof (omap_render rake re_compile_rest format_2f float_repr
                (λ e, match e with
                      | st_download_button _ data file _ => Some (data, file)
                      | _ => None end)
                df ship_df today w) as H1.
  pose proof (omap_render rake re_compile_rest format_2f float_repr
                (λ e, match e with st_dataframe rows => Some rows | _ => None end)
                df ship_df today w) as H2.
  assert ((render rake re_compile_rest format_2f float_repr df ship_df today w).2
          = match filtered_data re_compile_rest (search_term w) fdf with
            | Some _ => Returned | None => Raised end) as H3.
  { unfold render. cbv zeta. fold fdf.
    by destruct (filtered_data re_compile_rest (search_term w) fdf). }
  destruct (render _ _ _ _ _ _ _ _) as [rest e].
  cbn [fst snd] in *. unfold exported, displayed.
  fold fdf in H1, H2.
  rewrite !omap_app, H1, H2 by (by intros []).
  split; [|split; [|done]];
    cbv zeta; rewrite omap_app;
    by destruct (filtered_data re_compile_rest (search_term w) fdf).
Qed.

(** A run that stops at the date picker, at the bar chart or at the word
    cloud shows no table and offers no export. *)
Lemma stopped_outputs (df : AuthorityTable) (ship_df : ShipTable)
    (fdf : list AuthorityRecord) (ship : string) (rest : list event) :
  Forall (λ e, match e with
               | st_dataframe _ | st_download_button _ _ _ _ => False
               | _ => True
               end) rest →
  let trace :=
    [st_title "🚢 Port Authority Inspection Analytics Dashboard";
     read_excel authority_path; read_excel ship_path;
     sidebar_header "Filters"]
    ++ ((if has_Date df then
           [sidebar_date_input "Select Date Range"
              (min_date (records df)) (max_date (records df))]
         else [])
        ++ [sidebar_selectbox "Select a Port Authority" (ports (records df));
            sidebar_header "Ship Check"]
        ++ ship_check rake ship_df fdf ship
        ++ [st_subheader "📊 Top Inspection Focus Areas";
            st_slider "Number of top phrases to show" 5 20 10])
    ++ rest in
  exported trace = [] ∧ displayed trace = [].
Proof.
  intros Hrest trace.
  assert (exported rest = [] ∧ displayed rest = []) as [Hexp Hdis].
  { clear trace. induction Hrest as [|e rest He _ [IH1 IH2]]; [done|].
    destruct e; try done; split; try exact IH1; exact IH2. }
  assert (∀ {B} (f : event → option B),
            (∀ e, in_sidebar e = true → f e = None) →
            f (st_title "🚢 Port Authority Inspection Analytics Dashboard") = None →
            (∀ p, f (read_excel p) = None) →
            (∀ t, f (st_subheader t) = None) →
            (∀ l a b c, f (st_slider l a b c) = None) →
            omap f rest = [] → omap f trace = []) as Hall.
  { intros B f Hside Htitle Hread Hsub Hslider Hnone. unfold trace.
    rewrite !omap_app, (omap_ship_check rake f) by done.
    rewrite Hnone. cbn [omap list_omap]. rewrite Htitle, !Hread, Hsub, Hslider.
    rewrite !(Hside (sidebar_header _)), (Hside (sidebar_selectbox _ _)) by done.
    destruct (has_Date df); [|done]. cbn [omap list_omap].
    by rewrite (Hside (sidebar_date_input _ _ _)). }
  split; apply Hall; try done; by intros [].
Qed.


(** C10, as the code has it.  With both tables loaded, take any search
    term [s].  Whatever a download button of the run offers is the CSV
    text of the port-filtered subset under the name built from the port and
    the date: the term plays no part in it.  When the run without a search
    term returns, it shows the port-filtered subset and offers that export;
    the run with the term [s] then shows the subset restricted by the term
    and offers the same export when the term is accepted, and a term with
    only literal characters and dots is always accepted; when the term is
    rejected, the run ends with an exception before the table and offers no
    export.  When the run without a search term ends with an exception, so
    does the run with the term, and nothing is shown or offered. *)
Theorem export_ignores_search (df : AuthorityTable) (ship_df : ShipTable)
    (today : date) (w : Widgets) (s : string) :
  let env := mkEnv (Parsed df) (Parsed ship_df) today in
  let fdf := filtered_df (records df) (selected_port w) in
  let pass := run rake re_compile_rest format_2f float_repr word_cloud_accepts
                env (with_search_term s w) in
  let plain := run rake re_compile_rest format_2f float_repr word_cloud_accepts
                 env (with_search_term EmptyString w) in
  let csv := (to_csv float_repr (has_Date df) fdf,
              file_name (selected_port w) today) in
  (∀ x, x ∈ exported pass.1 → x = csv)
  ∧ (plain.2 = Returned →
     exported plain.1 = [csv] ∧ displayed plain.1 = [fdf]
     ∧ match filtered_data re_compile_rest s fdf with
       | Some rows =>
           exported pass.1 = [csv] ∧ displayed pass.1 = [rows]
           ∧ pass.2 = Returned
       | None =>
           exported pass.1 = [] ∧ displayed pass.1 = [] ∧ pass.2 = Raised
       end
     ∧ (s = EmptyString ∨ is_Some (Re.parse s) → exported pass.1 = [csv]))
  ∧ (plain.2 = Raised →
     exported pass.1 = [] ∧ displayed pass.1 = [] ∧ pass.2 = Raised).
Proof.
  intros env fdf pass plain csv.
  pose proof (run_loaded df ship_df today (with_search_term s w)) as Hpass.
  pose proof (run_loaded df ship_df today (with_search_term EmptyString w)) as Hplain.
  pose proof (main_outputs df ship_df today (with_search_term s w)) as Hmain.
  pose proof (main_outputs df ship_df today (with_search_term EmptyString w))
    as Hmain0.
  cbv zeta in Hpass, Hplain, Hmain, Hmain0.
  cbn [selected_port selected_ship top_n search_term with_search_term]
    in Hpass, Hplain, Hmain, Hmain0.
  fold env fdf in Hpass, Hplain, Hmain, Hmain0. fold pass in Hpass.
  fold plain in Hplain. fold csv in Hmain, Hmain0.
  change (filtered_data re_compile_rest EmptyString fdf) with (Some fdf) in Hmain0.
  assert (s = EmptyString ∨ is_Some (Re.parse s) →
          is_Some (filtered_data re_compile_rest s fdf)) as Hplainterm.
  { intros Hs. unfold filtered_data, re_compile. case_bool_decide; [done|].
    destruct Hs as [?|[atoms ->]]; [done|]. simpl. done. }
  assert (pass.2 = Raised ∧ plain.2 = Raised
          ∧ exported pass.1 = [] ∧ displayed pass.1 = []
          ∨ pass = main rake re_compile_rest format_2f float_repr env
                     (with_search_term s w)
            ∧ plain = main rake re_compile_rest format_2f float_repr env
                        (with_search_term EmptyString w)) as [Hstop|[Hp Hp0]].
  { destruct (decide (has_Date df = true ∧ dates (records df) = [])).
    { left. rewrite Hpass, Hplain. done. }
    destruct (decide (records df = [])).
    { left. rewrite Hpass, Hplain. split; [done|]. split; [done|].
      cbn [fst]. rewrite <- (app_nil_r (_ ++ _)).
      rewrite <- (assoc_L (++)). by apply stopped_outputs. }
    destruct (word_cloud_accepts (phrase_dict fdf)); [by right|].
    left. rewrite Hpass, Hplain. split; [done|]. split; [done|].
    cbn [fst]. rewrite (assoc_L (++) _ _ [_; _]).
    apply stopped_outputs. by repeat constructor. }
  - destruct Hstop as (Hend & Hend0 & Hexp & Hdis).
    split; [rewrite Hexp; by intros x ?%elem_of_nil|].
    split; [rewrite Hend0; discriminate|done].
  - rewrite Hp, Hp0.
    destruct Hmain as (Hexp & Hdis & Hend), Hmain0 as (Hexp0 & Hdis0 & Hend0).
    split; [|split].
    + intros x. rewrite Hexp.
      destruct (filtered_data _ _ _); [by intros ->%list_elem_of_singleton|].
      by intros ?%elem_of_nil.
    + intros _. split; [done|]. split; [done|]. split.
      * rewrite Hexp, Hdis, Hend. by destruct (filtered_data _ _ _).
      * intros Hs. rewrite Hexp. by destruct (Hplainterm Hs) as [rows ->].
    + rewrite Hend0. discriminate.
Qed.


Lemma dates_bounds (df : list AuthorityRecord) :
  match min_date df, max_date df with
  | Some lo, Some hi =>
      lo ∈ dates df ∧ hi ∈ dates df
      ∧ date_leb lo hi = true
      ∧ ∀ d, d ∈ dates df → date_leb lo d = true ∧ date_leb d hi = true
  | None, None => dates df = []
  | _, _ => False
  end.
Proof.
  pose proof (min_date_spec df) as Hmin.
  pose proof (max_date_spec df) as Hmax.
  destruct (min_date df) as [lo|], (max_date df) as [hi|].
  - destruct Hmin as [Hlo Hmin], Hmax as [Hhi Hmax].
    split; [done|]. split; [done|]. split; [by apply Hmin|]. auto.
  - rewrite Hmax in Hmin. destruct Hmin as [[]%elem_of_nil _].
  - rewrite Hmin in Hmax. destruct Hmax as [[]%elem_of_nil _].
  - done.
Qed.

(** X3.  With both tables loaded, a run renders the date picker exactly
    when the authority table has a [Date] column that holds a date: once,
    with the earliest and the latest date of the column as its bounds.
    The two bounds are dates of the column and every date of the column
    lies between them.  When the table has a [Date] column without any
    date, the run ends with an exception at the date picker, right after
    the heading of the filters. *)
Theorem date_picker_bounds (df : AuthorityTable) (ship_df : ShipTable)
    (today : date) (w : Widgets) :
  let pass := run rake re_compile_rest format_2f float_repr word_cloud_accepts
                (mkEnv (Parsed df) (Parsed ship_df) today) w in
  date_inputs pass.1
  = (if has_Date df then
       match min_date (records df), max_date (records df) with
       | Some lo, Some hi => [(Some lo, Some hi)]
       | _, _ => []
       end
     else [])
  ∧ (has_Date df = true → dates (records df) = [] →
     pass = ([st_title "🚢 Port Authority Inspection Analytics Dashboard";
              read_excel authority_path; read_excel ship_path;
              sidebar_header "Filters"], Raised))
  ∧ (dates (records df) ≠ [] →
     ∃ lo hi,
       min_date (records df) = Some lo ∧ max_date (records df) = Some hi
       ∧ lo ∈ dates (records df) ∧ hi ∈ dates (records df)
       ∧ date_leb lo hi = true
       ∧ ∀ d, d ∈ dates (records df) →
              date_leb lo d = true ∧ date_leb d hi = true).
Proof.
  intros pass.
  pose proof (run_loaded df ship_df today w) as Hrun.
  cbv zeta in Hrun. fold pass in Hrun.
  pose proof (dates_bounds (records df)) as Hbounds.
  split; [|split].
  - assert (∀ rest,
              date_inputs rest = [] →
              date_inputs
                ([st_title "🚢 Port Authority Inspection Analytics Dashboard";
                  read_excel authority_path; read_excel ship_path;
                  sidebar_header "Filters"]
                 ++ ((if has_Date df then
                        [sidebar_date_input "Select Date Range"
                           (min_date (records df)) (max_date (records df))]
                      else [])
                     ++ [sidebar_selectbox "Select a Port Authority"
                           (ports (records df));
                         sidebar_header "Ship Check"]
                     ++ ship_check rake ship_df
                          (filtered_df (records df) (selected_port w))
                          (selected_ship w)
                     ++ [st_subheader "📊 Top Inspection Focus Areas";
                         st_slider "Number of top phrases to show" 5 20 10])
                 ++ rest)
              = if has_Date df then
                  [(min_date (records df), max_date (records df))]
                else []) as Hprefix.
    { intros rest Hrest. unfold date_inputs in *. rewrite !omap_app.
      fold date_inputs. rewrite ship_check_no_date_input.
      unfold date_inputs. rewrite Hrest. by destruct (has_Date df). }
    destruct (decide (has_Date df = true ∧ dates (records df) = []))
      as [[Hcol Hnil]|Hd].
    { rewrite Hrun, Hcol. cbn [fst].
      destruct (min_date (records df)) as [lo|]; [|done].
      destruct (max_date (records df)) as [hi|]; [|done].
      rewrite Hnil in Hbounds. by destruct Hbounds as [?%elem_of_nil _]. }
    assert (date_inputs pass.1
            = if has_Date df then
                [(min_date (records df), max_date (records df))]
              else []) as ->.
    { rewrite Hrun. destruct (decide (records df = [])).
      { cbn [fst]. rewrite <- (app_nil_r (_ ++ _)), <- (assoc_L (++)).
        by apply Hprefix. }
      destruct (word_cloud_accepts _).
      - unfold main. cbn [final_xlsx ship_data_xlsx load_authority_data
          load_ship_data now].
        unfold render. cbv zeta.
        destruct (filtered_data _ _ _); cbn [fst]; unfold date_inputs;
          rewrite !omap_app; fold date_inputs;
          rewrite ship_check_no_date_input; by destruct (has_Date df).
      - cbn [fst]. rewrite (assoc_L (++) _ _ [_; _]). by apply Hprefix. }
    destruct (has_Date df); [|done].
    destruct (min_date (records df)) as [lo|], (max_date (records df)) as [hi|];
      try done.
    destruct Hd. done.
  - intros Hcol Hnil. rewrite Hrun. by rewrite decide_True.
  - intros Hne.
    destruct (min_date (records df)) as [lo|], (max_date (records df)) as [hi|];
      try done.
    exists lo, hi. tauto.
Qed.

(** X9.  With both tables loaded, take a run without a search term that
    returns.  The run with a search term that the regular-expression
    engine rejects ends with an exception right after the search box:
    everything up to the search box is rendered as in the run without a
    term, and what is lost is the table, the download button and the three
    closing texts. *)
Theorem rejected_term_aborts (df : AuthorityTable) (ship_df : ShipTable)
    (today : date) (w : Widgets) (s : string) :
  let env := mkEnv (Parsed df) (Parsed ship_df) today in
  let fdf := filtered_df (records df) (selected_port w) in
  let bad := run rake re_compile_rest format_2f float_repr word_cloud_accepts
               env (with_search_term s w) in
  let good := run rake re_compile_rest format_2f float_repr word_cloud_accepts
                env (with_search_term EmptyString w) in
  s ≠ EmptyString → re_compile re_compile_rest s = None →
  good.2 = Returned →
  bad.2 = Raised
  ∧ good.1
    = bad.1
      ++ [st_dataframe fdf;
          st_download_button "Download Data as CSV"
            (to_csv float_repr (has_Date df) fdf)
            (file_name (selected_port w) today) "text/csv";
          st_markdown "---";
          st_markdown "### About This Dashboard";
          st_markdown about_text].
Proof.
  intros env fdf bad good Hs Hre Hgood.
  pose proof (run_loaded df ship_df today (with_search_term s w)) as Hbad.
  pose proof (run_loaded df ship_df today (with_search_term EmptyString w)) as Hrun.
  cbv zeta in Hbad, Hrun.
  cbn [selected_port selected_ship top_n search_term with_search_term]
    in Hbad, Hrun.
  fold env fdf in Hbad, Hrun. fold bad in Hbad. fold good in Hrun, Hgood.
  destruct (decide (has_Date df = true ∧ dates (records df) = [])).
  { by rewrite Hrun in Hgood. }
  destruct (decide (records df = [])).
  { by rewrite Hrun in Hgood. }
  destruct (word_cloud_accepts (phrase_dict fdf)).
  2:{ by rewrite Hrun in Hgood. }
  rewrite Hbad, Hrun. unfold env, main, render.
  cbn [final_xlsx ship_data_xlsx load_authority_data load_ship_data now
       selected_port selected_ship search_term top_n date_range
       with_search_term].
  fold fdf.
  assert (filtered_data re_compile_rest s fdf = None) as ->
    by (by apply filtered_data_None).
  assert (filtered_data re_compile_rest EmptyString fdf = Some fdf) as -> by done.
  cbn [fst snd]. split; [done|].
  by rewrite <- !(assoc_L (++)).
Qed.


End Runs.

Lemma export_ignores_search_witness :
  let df := mkAuthorityTable false
              [mkAuthority "Tokyo" None "Fire safety" (3 # 2);
               mkAuthority "Osaka" None "Crew list" (1 # 2);
               mkAuthority "Tokyo" None "Oil record book" (1 # 2)] in
  let ship_df := mkShipTable true true
                   [mkShip (Some "Ever Given") (Some "Fire extinguisher missing")] in
  let w := mkWidgets (mkdate 2024 1 1, mkdate 2024 3 7) "Tokyo" "Ever Given" 10
             EmptyString in
  let pass := run word_rake (λ _, None) (λ _, "0.00") (λ _, "1.5")
                (λ freqs, bool_decide (size freqs ≠ 0))
                (mkEnv (Parsed df) (Parsed ship_df) (mkdate 2024 3 7))
                (with_search_term "oil" w) in
  exported pass.1
  = [("Authority,Phrase,TF-IDF Score" +:+ String Csv.LF
        ("Tokyo,Fire safety,1.5" +:+ String Csv.LF
           ("Tokyo,Oil record book,1.5" +:+ String Csv.LF EmptyString)),
      "port_inspection_data_Tokyo_20240307.csv")]
  ∧ displayed pass.1 = [[mkAuthority "Tokyo" None "Oil record book" (1 # 2)]]
  ∧ pass.2 = Returned.
Proof.
  destruct (export_ignores_search word_rake (λ _, None) (λ _, "0.00") (λ _, "1.5")
              (λ freqs, bool_decide (size freqs ≠ 0))
              (mkAuthorityTable false
                 [mkAuthority "Tokyo" None "Fire safety" (3 # 2);
                  mkAuthority "Osaka" None "Crew list" (1 # 2);
                  mkAuthority "Tokyo" None "Oil record book" (1 # 2)])
              (mkShipTable true true
                 [mkShip (Some "Ever Given") (Some "Fire extinguisher missing")])
              (mkdate 2024 3 7)
              (mkWidgets (mkdate 2024 1 1, mkdate 2024 3 7) "Tokyo" "Ever Given" 10
                 EmptyString)
              "oil") as (_ & H & _).
  destruct H as (_ & _ & H & _); [vm_compute; reflexivity|].
  exact H.
Defined.

(** The search term "(" is not a regular expression: the run ends at the
    search box, and the download button, which comes after the table, is
    never reached.  The run without a term offers the export. *)
Lemma export_rejected_term_counterexample :
  let df := mkAuthorityTable false [mkAuthority "Tokyo" None "Fire safety" (3 # 2)] in
  let ship_df := mkShipTable true true
                   [mkShip (Some "Ever Given") (Some "Fire extinguisher missing")] in
  let w := mkWidgets (mkdate 2024 1 1, mkdate 2024 3 7) "Tokyo" "Ever Given" 10
             EmptyString in
  let script rest s :=
    run word_rake rest (λ _, "0.00") (λ _, "1.5")
      (λ freqs, bool_decide (size freqs ≠ 0))
      (mkEnv (Parsed df) (Parsed ship_df) (mkdate 2024 3 7))
      (with_search_term s w) in
  (∀ rest, exported (script rest EmptyString).1
           = [("Authority,Phrase,TF-IDF Score" +:+ String Csv.LF
                 ("Tokyo,Fire safety,1.5" +:+ String Csv.LF EmptyString),
               "port_inspection_data_Tokyo_20240307.csv")])
  ∧ (∀ rest, rest "(" = None →
             exported (script rest "(").1 = [] ∧ (script rest "(").2 = Raised)
  ∧ ¬ (∀ rake rest format_2f float_repr word_cloud_accepts env w s,
         exported (run rake rest format_2f float_repr word_cloud_accepts env
                     (with_search_term s w)).1
         = exported (run rake rest format_2f float_repr word_cloud_accepts env
                       (with_search_term EmptyString w)).1).
Proof.
  split; [by intros rest|]. split.
  - intros rest Hrest. unfold run, main, render, filtered_data, re_compile.
    cbn [final_xlsx ship_data_xlsx load_authority_data load_ship_data now
         search_term with_search_term Re.parse bool_decide decide_rel].
    vm_compute. by rewrite Hrest.
  - intros H.
    specialize (H word_rake (λ _, None) (λ _, "0.00") (λ _, "1.5")
                  (λ freqs, bool_decide (size freqs ≠ 0))
                  (mkEnv (Parsed (mkAuthorityTable false
                                    [mkAuthority "Tokyo" None "Fire safety" (3 # 2)]))
                     (Parsed (mkShipTable true true []))
                     (mkdate 2024 3 7))
                  (mkWidgets (mkdate 2024 1 1, mkdate 2024 3 7) "Tokyo"
                     "Ever Given" 10 EmptyString)
                  "(").
    vm_compute in H. discriminate H.
Qed.

Lemma date_picker_bounds_witness :
  let df := mkAuthorityTable true [mkAuthority "Tokyo" None "Fire safety" (3 # 2)] in
  let ship_df := mkShipTable true true
                   [mkShip (Some "Ever Given") (Some "Fire extinguisher missing")] in
  let w := mkWidgets (mkdate 2024 1 1, mkdate 2024 3 7) "Tokyo" "Ever Given" 10
             EmptyString in
  run word_rake (λ _, None) (λ _, "0.00") (λ _, "1.5")
    (λ freqs, bool_decide (size freqs ≠ 0))
    (mkEnv (Parsed df) (Parsed ship_df) (mkdate 2024 3 7)) w
  = ([st_title "🚢 Port Authority Inspection Analytics Dashboard";
      read_excel authority_path; read_excel ship_path;
      sidebar_header "Filters"], Raised).
Proof.
  apply (date_picker_bounds word_rake (λ _, None) (λ _, "0.00") (λ _, "1.5")
           (λ freqs, bool_decide (size freqs ≠ 0))
           (mkAuthorityTable true [mkAuthority "Tokyo" None "Fire safety" (3 # 2)])
           (mkShipTable true true
              [mkShip (Some "Ever Given") (Some "Fire extinguisher missing")])
           (mkdate 2024 3 7)
           (mkWidgets (mkdate 2024 1 1, mkdate 2024 3 7) "Tokyo" "Ever Given" 10
              EmptyString)); reflexivity.
Defined.

Lemma rejected_term_aborts_witness :
  (run word_rake (λ _, None) (λ _, "0.00") (λ _, "1.5")
     (λ freqs, bool_decide (size freqs ≠ 0))
     (mkEnv (Parsed (mkAuthorityTable false
                       [mkAuthority "Tokyo" None "Fire safety" (3 # 2)]))
        (Parsed (mkShipTable true true [])) (mkdate 2024 3 7))
     (with_search_term "("
        (mkWidgets (mkdate 2024 1 1, mkdate 2024 3 7) "Tokyo" "Ever Given" 10
           EmptyString))).2
  = Raised.
Proof.
  apply (rejected_term_aborts word_rake (λ _, None) (λ _, "0.00") (λ _, "1.5")
           (λ freqs, bool_decide (size freqs ≠ 0))
           (mkAuthorityTable false [mkAuthority "Tokyo" None "Fire safety" (3 # 2)])
           (mkShipTable true true []) (mkdate 2024 3 7)
           (mkWidgets (mkdate 2024 1 1, mkdate 2024 3 7) "Tokyo" "Ever Given" 10
              EmptyString)
           "("); [discriminate|reflexivity|vm_compute; reflexivity].
Defined.

(** ** The word cloud and the metrics *)

Lemma size_list_to_set_le (l : list string) :
  size (list_to_set l : gset string) ≤ length l
  ∧ (size (list_to_set l : gset string) = length l → NoDup l).
Proof.
  induction l as [|x l [IH1 IH2]]; [split; [done|constructor]|].
  rewrite list_to_set_cons. destruct (decide (x ∈ l)) as [Hin|Hin].
  - assert ({[x]} ∪ list_to_set l = (list_to_set l : gset string)) as ->.
    { assert (x ∈ (list_to_set l : gset string)) by (by apply elem_of_list_to_set).
      set_solver. }
    simpl. split; lia.
  - rewrite size_union, size_singleton
      by (rewrite disjoint_singleton_l, elem_of_list_to_set; done).
    simpl. split; [lia|]. intros H. constructor; [done|]. apply IH2. lia.
Qed.

Lemma foldl_insert_dom (m : gmap string Q) (l : list AuthorityRecord) :
  dom (foldl (λ m r, <[Phrase r := Score r]> m) m l)
  = dom m ∪ list_to_set (Phrase <$> l).
Proof.
  revert m. induction l as [|r l IH]; intros m; simpl.
  - set_solver.
  - rewrite IH, dom_insert_L. set_solver.
Qed.

Lemma foldl_insert_lookup_later (m : gmap string Q) (l : list AuthorityRecord)
    (p : string) :
  p ∉ Phrase <$> l →
  foldl (λ m r, <[Phrase r := Score r]> m) m l !! p = m !! p.
Proof.
  revert m. induction l as [|r l IH]; intros m Hp; simpl; [done|].
  rewrite fmap_cons, not_elem_of_cons in Hp. destruct Hp as [Hne Hp].
  rewrite IH by done. by rewrite lookup_insert_ne.
Qed.

Lemma foldl_insert_lookup_Some (m : gmap string Q) (l : list AuthorityRecord)
    (p : string) (q : Q) :
  foldl (λ m r, <[Phrase r := Score r]> m) m l !! p = Some q →
  m !! p = Some q ∨ ∃ r, r ∈ l ∧ Phrase r = p ∧ Score r = q.
Proof.
  revert m. induction l as [|r l IH]; intros m H; simpl in H; [by left|].
  apply IH in H as [H|(r' & Hr' & Hp & Hq)].
  - destruct (decide (Phrase r = p)) as [Heq|Hne].
    + subst p. rewrite lookup_insert_eq in H. simplify_eq.
      right. exists r. split; [left|done].
    + rewrite lookup_insert_ne in H by done. by left.
  - right. exists r'. split; [by right|done].
Qed.

(** X11.  The word cloud gets one entry per distinct phrase of the
    port-filtered subset; a phrase that occurs in several rows carries the
    score of the last of them, and every entry carries the score of some
    row with that phrase.  The metric labelled "Number of Unique Phrases"
    is the number of rows: it is never smaller than the number of entries
    of the word cloud, and equal to it exactly when no phrase is
    repeated. *)
Theorem word_cloud_entries (rake : string → list (Q * string))
    (re_compile_rest : string → option (string → bool))
    (format_2f float_repr : Q → string)
    (df : AuthorityTable) (ship_df : ShipTable) (today : date) (w : Widgets) :
  let fdf := filtered_df (records df) (selected_port w) in
  let trace := (render rake re_compile_rest format_2f float_repr
                  df ship_df today w).1 in
  word_clouds trace = [phrase_dict fdf]
  ∧ (∃ avg delta top,
       metrics trace
       = [("Average TF-IDF Score", avg, Some delta);
          ("Number of Unique Phrases", pretty (length fdf), None);
          ("Max TF-IDF Score", top, None)])
  ∧ dom (phrase_dict fdf) = list_to_set (Phrase <$> fdf)
  ∧ size (phrase_dict fdf) ≤ length fdf
  ∧ (size (phrase_dict fdf) = length fdf ↔ NoDup (Phrase <$> fdf))
  ∧ (∀ l1 r l2, fdf = l1 ++ r :: l2 → Phrase r ∉ Phrase <$> l2 →
                phrase_dict fdf !! Phrase r = Some (Score r))
  ∧ (∀ p q, phrase_dict fdf !! p = Some q →
            ∃ r, r ∈ fdf ∧ Phrase r = p ∧ Score r = q).
Proof.
  intros fdf trace.
  assert (dom (phrase_dict fdf) = list_to_set (Phrase <$> fdf)) as Hdom.
  { unfold phrase_dict. rewrite foldl_insert_dom. set_solver. }
  assert (size (phrase_dict fdf) = size (list_to_set (Phrase <$> fdf) : gset string))
    as Hsize by (by rewrite <- Hdom, size_dom).
  destruct (size_list_to_set_le (Phrase <$> fdf)) as [Hle HNoDup].
  rewrite length_fmap in Hle, HNoDup.
  split; [|split; [|split; [|split; [|split; [|split]]]]].
  - unfold trace, word_clouds. rewrite omap_render by (by intros []).
    cbv zeta. rewrite omap_app. fold fdf. by destruct (filtered_data _ _ _).
  - unfold trace, metrics. rewrite omap_render by (by intros []).
    cbv zeta. rewrite omap_app. fold fdf.
    destruct (filtered_data _ _ _); simpl; eauto.
  - done.
  - lia.
  - rewrite Hsize. split; [done|]. intros Hnd.
    by rewrite size_list_to_set, length_fmap.
  - intros l1 r l2 -> Hlast. unfold phrase_dict.
    rewrite foldl_app. simpl. rewrite foldl_insert_lookup_later by done.
    apply lookup_insert_eq.
  - intros p q H. unfold phrase_dict in H.
    apply foldl_insert_lookup_Some in H as [H|H]; [|done].
    by rewrite lookup_empty in H.
Qed.

(** ** The bar chart against the metrics *)

Lemma maximum_spec (l : list Q) :
  match maximum l with
  | None => l = []
  | Some m => m ∈ l ∧ ∀ x, x ∈ l → (x <= m)%Q
  end.
Proof.
  induction l as [|x l IH]; simpl; [done|].
  destruct (maximum l) as [y|].
  - destruct IH as [Hy Hle]. destruct (Qle_bool x y) eqn:E.
    + apply Qle_bool_iff in E. split; [by right|].
      intros z [->|Hz]%elem_of_cons; [done|by apply Hle].
    + assert (y < x)%Q as Hlt.
      { apply Qnot_le_lt. intros H%Qle_bool_iff. congruence. }
      split; [left|]. intros z [->|Hz]%elem_of_cons; [apply Qle_refl|].
      apply Hle in Hz. lra.
  - subst l. split; [left|].
    intros z [->|Hz]%elem_of_cons; [apply Qle_refl|by apply elem_of_nil in Hz].
Qed.

Lemma sort_desc_head (fdf : list AuthorityRecord) :
  fdf ≠ [] →
  ∃ r rest, sort_desc fdf = r :: rest ∧ r ∈ fdf
            ∧ ∀ x, x ∈ fdf → (Score x <= Score r)%Q.
Proof.
  intros Hne. pose proof (sort_desc_Permutation fdf) as Hperm.
  pose proof (sort_desc_sorted fdf) as Hsorted.
  destruct (sort_desc fdf) as [|r rest].
  - apply Permutation_nil_l in Hperm. done.
  - exists r, rest. split; [done|]. split.
    + rewrite <- Hperm. left.
    + intros x Hx. rewrite <- Hperm in Hx.
      apply StronglySorted_inv in Hsorted as [_ Hall].
      apply elem_of_cons in Hx as [->|Hx]; [apply Qle_refl|].
      rewrite Forall_forall in Hall. by apply Hall.
Qed.

(** X12.  When the port-filtered subset is not empty and the slider is at
    least 1, the first bar of the chart is the first row of the subset, in
    source order, among the rows of the highest score, and its score is the
    value behind the "Max TF-IDF Score" metric. *)
Theorem chart_and_metrics (n : nat) (fdf : list AuthorityRecord) :
  1 ≤ n → fdf ≠ [] →
  ∃ r rest m,
    top_phrases n fdf = r :: rest
    ∧ r ∈ fdf
    ∧ (∀ x, x ∈ fdf → (Score x <= Score r)%Q)
    ∧ head (with_score (Score r) fdf) = Some r
    ∧ maximum (Score <$> fdf) = Some m ∧ (Score r == m)%Q.
Proof.
  intros Hn Hne. destruct (sort_desc_head fdf Hne) as (r & rest & Hsort & Hr & Hle).
  pose proof (maximum_spec (Score <$> fdf)) as Hmax.
  destruct (maximum (Score <$> fdf)) as [m|] eqn:Em.
  2:{ apply fmap_nil_inv in Hmax. done. }
  destruct Hmax as [Hm Hmle].
  exists r, (take (n - 1) rest), m.
  split; [|split; [done|split; [done|split; [|split; [done|]]]]].
  - unfold top_phrases, nlargest. rewrite Hsort.
    destruct n as [|n]; [lia|]. simpl. by rewrite Nat.sub_0_r.
  - rewrite <- (sort_desc_stable (Score r) fdf), Hsort.
    unfold with_score. rewrite filter_cons.
    rewrite decide_True; [done|]. apply Qeq_bool_iff. reflexivity.
  - apply Qle_antisym.
    + apply Hmle. by apply list_elem_of_fmap_2.
    + apply list_elem_of_fmap in Hm as (x & -> & Hx). by apply Hle.
Qed.

Lemma chart_and_metrics_witness :
  ∃ r rest m,
    top_phrases 5
      [mkAuthority "Tokyo" None "crew list" (1 # 2);
       mkAuthority "Tokyo" None "fire safety" (3 # 2);
       mkAuthority "Tokyo" None "oil record book" (3 # 2)] = r :: rest
    ∧ Phrase r = "fire safety"
    ∧ maximum [1 # 2; 3 # 2; 3 # 2] = Some m ∧ (Score r == m)%Q.
Proof.
  destruct (chart_and_metrics 5
              [mkAuthority "Tokyo" None "crew list" (1 # 2);
               mkAuthority "Tokyo" None "fire safety" (3 # 2);
               mkAuthority "Tokyo" None "oil record book" (3 # 2)])
    as (r & rest & m & H1 & _ & _ & _ & H2 & H3);
    [lia|discriminate|].
  exists r, rest, m. split; [exact H1|]. split.
  - vm_compute in H1. injection H1 as <- _. reflexivity.
  - split; [exact H2|exact H3].
Defined.

(** ** The slider *)

(** X13.  Raising the slider only appends bars: the chart for a smaller
    value is the beginning of the chart for a larger one.  Once the value
    reaches the number of rows of the port-filtered subset, the chart
    holds every row of the subset, each as often as it occurs there. *)
Theorem slider_only_appends (n k : nat) (fdf : list AuthorityRecord) :
  top_phrases n fdf `prefix_of` top_phrases (n + k) fdf
  ∧ (length fdf ≤ n → top_phrases n fdf ≡ₚ fdf)
  ∧ (∀ r, r ∈ top_phrases n fdf → r ∈ fdf).
Proof.
  unfold top_phrases, nlargest. split; [|split].
  - rewrite <- (take_take_drop (sort_desc fdf) n k). by apply prefix_app_r.
  - intros Hn. rewrite take_ge.
    + apply sort_desc_Permutation.
    + by rewrite (Permutation_length (sort_desc_Permutation fdf)).
  - intros r Hr. rewrite <- (sort_desc_Permutation fdf).
    eapply elem_of_sublist; [exact Hr|apply sublist_take].
Qed.

(** ** The name of the exported file *)

Lemma length_zero_padded (width n : nat) :
  String.length (zero_padded width n) = width.
Proof.
  revert n. induction width as [|w IH]; intros n; cbn [zero_padded]; [done|].
  rewrite length_app, IH. simpl. lia.
Qed.

(** Two texts that end in parts of the same length are equal part by
    part. *)
Lemma app_inj_length (a b x y : string) :
  a +:+ x = b +:+ y → String.length x = String.length y → a = b ∧ x = y.
Proof.
  revert b. induction a as [|c a IH]; intros [|c' b] Heq Hlen; simpl in Heq.
  - done.
  - subst x. simpl in Hlen. rewrite length_app in Hlen. lia.
  - subst y. simpl in Hlen. rewrite length_app in Hlen. lia.
  - injection Heq as -> Heq. destruct (IH b Heq Hlen) as [-> ->]. done.
Qed.

Lemma digit_inj (a b : nat) : a < 10 → b < 10 → digit a = digit b → a = b.
Proof.
  intros Ha Hb H. unfold digit in H.
  apply (f_equal nat_of_ascii) in H.
  rewrite !nat_ascii_embedding in H by lia. lia.
Qed.

Lemma zero_padded_inj (width n n' : nat) :
  n < 10 ^ width → n' < 10 ^ width →
  zero_padded width n = zero_padded width n' → n = n'.
Proof.
  revert n n'. induction width as [|w IH]; intros n n' Hn Hn' Heq.
  - simpl in Hn, Hn'. lia.
  - cbn [zero_padded] in Heq.
    apply app_inj_length in Heq as [Hhigh Hlow]; [|done].
    assert (digit (n mod 10) = digit (n' mod 10)) as Hdigit
      by (by injection Hlow).
    apply digit_inj in Hdigit; [|apply Nat.mod_upper_bound; lia..].
    rewrite Nat.pow_succ_r' in Hn, Hn'.
    apply IH in Hhigh; [|apply Nat.Div0.div_lt_upper_bound; lia..].
    pose proof (Nat.div_mod_eq n 10). pose proof (Nat.div_mod_eq n' 10). lia.
Qed.

Lemma strftime_Ymd_inj (d d' : date) :
  valid_date d → valid_date d' → strftime_Ymd d = strftime_Ymd d' → d = d'.
Proof.
  intros (Hy & Hm & Hd) (Hy' & Hm' & Hd'). unfold strftime_Ymd. intros H.
  apply app_inj_length in H as [Hyear H].
  2:{ by rewrite !length_app, !length_zero_padded. }
  apply app_inj_length in H as [Hmonth Hday].
  2:{ by rewrite !length_zero_padded. }
  apply zero_padded_inj in Hyear; [|done..].
  apply zero_padded_inj in Hmonth; [|simpl; lia..].
  apply zero_padded_inj in Hday; [|simpl; lia..].
  destruct d, d'. simpl in *. congruence.
Qed.

(** X14.  The name of the exported file is "port_inspection_data_", the
    selected port, an underscore, eight digits for the date and ".csv".
    Two exports with the same name are exports of the same port, made on
    the same day: no two ports and no two days share a file name. *)
Theorem file_name_identifies (port port' : string) (d d' : date) :
  valid_date d → valid_date d' →
  file_name port d = file_name port' d' →
  port = port' ∧ d = d'
  ∧ String.length (strftime_Ymd d) = 8
  ∧ String.length (file_name port d) = String.length port + 34.
Proof.
  intros Hd Hd' H.
  assert (String.length (strftime_Ymd d) = 8 ∧ String.length (strftime_Ymd d') = 8)
    as [Hlen Hlen'].
  { unfold strftime_Ymd. by rewrite !length_app, !length_zero_padded. }
  unfold file_name in H. apply (inj (String.app _)) in H.
  apply app_inj_length in H as [-> H].
  2:{ rewrite !length_app, Hlen, Hlen'. done. }
  apply (inj (String.app "_")) in H.
  apply (app_inj_length _ _ ".csv" ".csv") in H as [H _]; [|done].
  apply strftime_Ymd_inj in H; [|done..]. subst d'.
  split; [done|]. split; [done|]. split; [done|].
  unfold file_name. rewrite !length_app, Hlen. simpl. lia.
Qed.

Lemma file_name_identifies_witness :
  file_name "Tokyo" (mkdate 2024 3 7) = "port_inspection_data_Tokyo_20240307.csv"
  ∧ String.length (file_name "Tokyo" (mkdate 2024 3 7)) = String.length "Tokyo" + 34.
Proof.
  split; [reflexivity|].
  apply (file_name_identifies "Tokyo" "Tokyo" (mkdate 2024 3 7) (mkdate 2024 3 7));
    [unfold valid_date; simpl; lia..|reflexivity].
Defined.

(** ** The records of the export *)

(** X15.  Take a selected port and rows of that port none of which holds
    a carriage return in its text.  Read back, the exported CSV has one
    record for the header and one for each row of the port-filtered
    subset, whatever the search term; the header names the column
    "Authority", every data record has as many fields as the header, and
    its field under "Authority" is the selected port: no row of another
    port is exported. *)
Theorem export_rows_of_port (float_repr : Q → string) (with_date : bool)
    (df : list AuthorityRecord) (port : string) :
  let fdf := filtered_df df port in
  let recs := Csv.read (to_csv float_repr with_date fdf) in
  Csv.has_CR port = false →
  Forall (λ r, Csv.has_CR (Phrase r) = false
               ∧ Csv.has_CR (float_repr (Score r)) = false) fdf →
  length recs = S (length fdf)
  ∧ ∃ header,
      head recs = Some header
      ∧ "Authority" ∈ header
      ∧ ∀ rec, rec ∈ tail recs →
               length rec = length header
               ∧ cell header rec "Authority" = Some port.
Proof.
  intros fdf recs Hport Hcr. unfold recs. rewrite read_to_csv.
  2:{ apply Forall_forall. intros r Hr. rewrite Forall_forall in Hcr.
      destruct (Hcr r Hr). apply list_elem_of_filter in Hr as [-> _]. done. }
  cbn [head tail length]. split; [by rewrite length_fmap|].
  exists (csv_header with_date). split; [done|]. split.
  - destruct with_date; apply list_elem_of_here.
  - intros rec (r & -> & Hr)%list_elem_of_fmap.
    apply list_elem_of_filter in Hr as [Hr _].
    destruct with_date; (split; [done|]); unfold csv_header, csv_cells;
      by rewrite Hr.
Qed.

Lemma export_rows_of_port_witness :
  let float_repr := λ q : Q, if Qeq_bool q (3 # 2) then "1.5" else "0.5" in
  let df := [mkAuthority "Tokyo" None "Fire, smoke and heat" (3 # 2);
             mkAuthority "Osaka" None "Crew list" (1 # 2);
             mkAuthority "Tokyo" None "Oil record book" (1 # 2)] in
  Csv.read (to_csv float_repr false (filtered_df df "Tokyo"))
  = [["Authority"; "Phrase"; "TF-IDF Score"];
     ["Tokyo"; "Fire, smoke and heat"; "1.5"];
     ["Tokyo"; "Oil record book"; "0.5"]]
  ∧ length (Csv.read (to_csv float_repr false (filtered_df df "Tokyo"))) = 3.
Proof.
  split; [reflexivity|].
  apply (export_rows_of_port
           (λ q : Q, if Qeq_bool q (3 # 2) then "1.5" else "0.5") false
           [mkAuthority "Tokyo" None "Fire, smoke and heat" (3 # 2);
            mkAuthority "Osaka" None "Crew list" (1 # 2);
            mkAuthority "Tokyo" None "Oil record book" (1 # 2)]
           "Tokyo").
  - reflexivity.
  - repeat constructor.
Defined.

(** ** The text given to RAKE *)

Lemma join_substring (sep x : string) (l : list string) :
  x ∈ l → Str.is_substring x (Str.join sep l).
Proof.
  induction l as [|y l IH]; [by intros ?%elem_of_nil|].
  destruct l as [|z l].
  - intros ->%list_elem_of_singleton. apply StrFacts.is_substring_refl.
  - change (Str.join sep (y :: z :: l)) with (y +:+ sep +:+ Str.join sep (z :: l)).
    intros [->|Hx]%elem_of_cons.
    + apply StrFacts.is_substring_app_r, StrFacts.is_substring_refl.
    + by apply StrFacts.is_substring_app_l, StrFacts.is_substring_app_l, IH.
Qed.

(** X16.  Rows of other vessels, rows without a deficiency entry and rows
    whose entry is "nil" in any letter case have no effect on the text
    given to RAKE, nor on the keywords: adding or removing them anywhere
    in the ship table changes nothing. *)
Theorem other_rows_do_not_matter (rake : string → list (Q * string))
    (before extra after : list ShipRecord) (ship : string) :
  (∀ r, r ∈ extra →
        Vessel_Name r ≠ Some ship
        ∨ Nature_of_deficiency r = None
        ∨ ∃ t, Nature_of_deficiency r = Some t ∧ Str.lower t = "nil") →
  combined_text (past_deficiencies (ship_rows (before ++ extra ++ after) ship))
  = combined_text (past_deficiencies (ship_rows (before ++ after) ship))
  ∧ top_keywords (ranked_phrases rake (before ++ extra ++ after) ship)
    = top_keywords (ranked_phrases rake (before ++ after) ship).
Proof.
  intros Hextra.
  assert (combined_text
            (past_deficiencies (ship_rows (before ++ extra ++ after) ship))
          = combined_text (past_deficiencies (ship_rows (before ++ after) ship)))
    as Htext.
  { unfold combined_text, past_deficiencies, ship_rows.
    rewrite !filter_app, !omap_app, !filter_app.
    rewrite (filter_none _ (omap Nature_of_deficiency (filter _ extra))); [done|].
    intros t (r & Hr & Ht)%list_elem_of_omap Hkeep.
    apply list_elem_of_filter in Hr as [Hname Hr].
    destruct (Hextra r Hr) as [H|[H|(t' & H & Hnil)]]; [done|congruence|].
    apply Hkeep. congruence. }
  split; [done|]. unfold ranked_phrases. by rewrite Htext.
Qed.

Lemma other_rows_do_not_matter_witness :
  combined_text
    (past_deficiencies
       (ship_rows
          ([mkShip (Some "Ever Given") (Some "Fire extinguisher missing")]
           ++ [mkShip (Some "Maersk Alabama") (Some "Oil leak");
               mkShip (Some "Ever Given") (Some "NIL");
               mkShip (Some "Ever Given") None]
           ++ [mkShip (Some "Ever Given") (Some "Life jacket expired")])
          "Ever Given"))
  = "Fire extinguisher missing Life jacket expired".
Proof.
  etrans.
  - apply (other_rows_do_not_matter word_rake
             [mkShip (Some "Ever Given") (Some "Fire extinguisher missing")]
             [mkShip (Some "Maersk Alabama") (Some "Oil leak");
              mkShip (Some "Ever Given") (Some "NIL");
              mkShip (Some "Ever Given") None]
             [mkShip (Some "Ever Given") (Some "Life jacket expired")]
             "Ever Given").
    intros r Hr.
    repeat (apply elem_of_cons in Hr as [->|Hr]);
      [left; discriminate|right; right; by eexists|right; by left|].
    by apply elem_of_nil in Hr.
  - reflexivity.
Defined.

(** X17.  Every deficiency entry of the selected vessel that is present
    and not "nil" occurs verbatim in the text given to RAKE. *)
Theorem entries_occur_in_text (ship_df : list ShipRecord) (ship : string)
    (r : ShipRecord) (t : string) :
  r ∈ ship_df → Vessel_Name r = Some ship →
  Nature_of_deficiency r = Some t → Str.lower t ≠ "nil" →
  Str.is_substring t (combined_text (past_deficiencies (ship_rows ship_df ship))).
Proof.
  intros Hr Hname Ht Hkeep. unfold combined_text. apply join_substring.
  apply list_elem_of_filter. split; [done|].
  apply list_elem_of_omap. exists r. split; [|done].
  by apply list_elem_of_filter.
Qed.

Lemma entries_occur_in_text_witness :
  Str.is_substring "Life jacket expired"
    (combined_text
       (past_deficiencies
          (ship_rows
             [mkShip (Some "Ever Given") (Some "Fire extinguisher missing");
              mkShip (Some "Ever Given") (Some "Life jacket expired")]
             "Ever Given"))).
Proof.
  apply (entries_occur_in_text
           [mkShip (Some "Ever Given") (Some "Fire extinguisher missing");
            mkShip (Some "Ever Given") (Some "Life jacket expired")]
           "Ever Given"
           (mkShip (Some "Ever Given") (Some "Life jacket expired"))
           "Life jacket expired").
  - apply list_elem_of_further, list_elem_of_here.
  - reflexivity.
  - reflexivity.
  - discriminate.
Defined.
